(** * Capsule layers with dynamic routing (models/layers/capsule_utils.py)

    A shallow embedding of the squash non-linearity, the leaky softmax, the
    routing loop [_update_routing] and the fully connected layer [capsule],
    together with the properties of the routing algorithm.

    Numbers.  The source computes in float32.  Here a tensor element is an
    [option R]: [Some x] is the finite number [x] of exact real arithmetic and
    [None] is a value that is not a finite number.  The only operation of the
    module that leaves the finite numbers is a division by zero; every
    operation maps [None] to [None], as IEEE arithmetic propagates NaN.
    Rounding and overflow are not modelled.

    Tensors.  A tensor is a shape and an indexing function; the operations of
    the array library are defined on that representation, axis by axis, with
    NumPy broadcasting for the elementwise ones.

    Errors.  Building the graph is Python code and can raise; running it can
    fail inside a kernel.  Both are values of [result].

    The file also covers the convolutional capsule layer of the same module,
    the rendering of an image in dream/layer_visual.py and the processing of
    SVHN examples in input_data/svhn/svhn_input.py. *)

From Stdlib Require Import Reals Lra Lia List Arith ZArith Bool.
From Stdlib Require String.
Import ListNotations.
Import String.StringSyntax.

Local Open Scope nat_scope.
Delimit Scope string_scope with string.

(* ================================================================== *)
(** ** Errors *)

Inductive error : Type :=
| IndexError            (* Python: list assignment index out of range *)
| InvalidArgumentError  (* kernel: TensorArray read outside the array *)
| OutOfFuel.            (* the model's loop bound was too small *)

Inductive result (A : Type) : Type :=
| Ok (a : A)
| Err (e : error).

Arguments Ok {A} a.
Arguments Err {A} e.

Definition bind {A B : Type} (r : result A) (k : A -> result B) : result B :=
  match r with
  | Ok a => k a
  | Err e => Err e
  end.

Notation "x <- r ;; k" := (bind r (fun x => k))
  (at level 61, r at next level, right associativity).

(* ================================================================== *)
(** ** Numbers *)

Definition num : Type := option R.

Definition lift2 (f : R -> R -> R) (a b : num) : num :=
  match a, b with
  | Some x, Some y => Some (f x y)
  | _, _ => None
  end.

Definition nadd : num -> num -> num := lift2 Rplus.
Definition nmul : num -> num -> num := lift2 Rmult.

(** Division: a zero divisor gives a value that is not a finite number. *)
Definition ndiv (a b : num) : num :=
  match a, b with
  | Some x, Some y => if Req_dec_T y 0 then None else Some (x / y)%R
  | _, _ => None
  end.

Definition nsqrt (a : num) : num :=
  match a with
  | Some x => if Rlt_dec x 0 then None else Some (sqrt x)
  | None => None
  end.

Definition nexp (a : num) : num :=
  match a with
  | Some x => Some (exp x)
  | None => None
  end.

(** [nsum f n] is [f 0 + ... + f (n-1)]. *)
Fixpoint nsum (f : nat -> num) (n : nat) : num :=
  match n with
  | 0 => Some 0%R
  | S k => nadd (nsum f k) (f k)
  end.

(* ================================================================== *)
(** ** Index and shape arithmetic *)

Fixpoint zip_with {A B C : Type} (f : A -> B -> C) (l : list A) (m : list B)
  : list C :=
  match l, m with
  | a :: l', b :: m' => f a b :: zip_with f l' m'
  | _, _ => []
  end.

(** Replace, insert and remove the entry of an axis. *)
Definition set_at (ax v : nat) (l : list nat) : list nat :=
  firstn ax l ++ v :: skipn (S ax) l.

Definition insert_at (ax v : nat) (l : list nat) : list nat :=
  firstn ax l ++ v :: skipn ax l.

Definition remove_at (ax : nat) (l : list nat) : list nat :=
  firstn ax l ++ skipn (S ax) l.

(** Position of the first occurrence of [x] in [l]. *)
Fixpoint index_of (x : nat) (l : list nat) : nat :=
  match l with
  | [] => 0
  | y :: l' => if x =? y then 0 else S (index_of x l')
  end.

Definition prod (l : list nat) : nat := fold_right Nat.mul 1 l.

(** [idx] is a valid index of an array of shape [s]. *)
Definition in_range (s idx : list nat) : Prop := Forall2 lt idx s.

(** Broadcasting: shapes are aligned on their last axis, a missing axis or
    an axis of size 1 is stretched.  The library refuses two shapes that
    differ on an axis where neither is 1; the operations below are total and
    take the size of the first operand there. *)
Definition pad_shape (n : nat) (s : list nat) : list nat :=
  repeat 1 (n - length s) ++ s.

Definition bdim (a b : nat) : nat := if a =? 1 then b else a.

Definition bshape (s1 s2 : list nat) : list nat :=
  let n := Nat.max (length s1) (length s2) in
  zip_with bdim (pad_shape n s1) (pad_shape n s2).

(** The index of the operand of shape [s] read for the result index [idx]. *)
Definition bidx (s idx : list nat) : list nat :=
  zip_with (fun d i => if d =? 1 then 0 else i) s
           (skipn (length idx - length s) idx).

(** Row-major position of an index, and back. *)
Fixpoint ravel (s idx : list nat) (acc : nat) : nat :=
  match s, idx with
  | d :: s', i :: idx' => ravel s' idx' (acc * d + i)
  | _, _ => acc
  end.

Fixpoint unravel (s : list nat) (n : nat) : list nat :=
  match s with
  | [] => []
  | d :: s' => n / prod s' :: unravel s' (n mod prod s')
  end.

(* ================================================================== *)
(** ** Tensors and the operations of the array library *)

Record tensor : Type := mkT { shape : list nat; get : list nat -> num }.

Definition scalar (x : R) : tensor := mkT [] (fun _ => Some x).

(** [tf.fill(shape, x)] *)
Definition fill (s : list nat) (x : R) : tensor := mkT s (fun _ => Some x).

(** [tf.zeros_like] *)
Definition zeros_like (t : tensor) : tensor := fill (shape t) 0.

Definition broadcast2 (f : num -> num -> num) (a b : tensor) : tensor :=
  mkT (bshape (shape a) (shape b))
      (fun idx => f (get a (bidx (shape a) idx)) (get b (bidx (shape b) idx))).

Definition add : tensor -> tensor -> tensor := broadcast2 nadd.
Definition mul : tensor -> tensor -> tensor := broadcast2 nmul.
Definition div : tensor -> tensor -> tensor := broadcast2 ndiv.

Definition tmap (f : num -> num) (t : tensor) : tensor :=
  mkT (shape t) (fun idx => f (get t idx)).

(** [tf.transpose(t, perm)]: axis [k] of the result is axis [perm[k]] of [t]. *)
Definition transpose (t : tensor) (perm : list nat) : tensor :=
  mkT (map (fun p => nth p (shape t) 0) perm)
      (fun idx =>
         get t (map (fun ax => nth (index_of ax perm) idx 0)
                    (seq 0 (length perm)))).

(** [tf.reduce_sum(t, axis, keep_dims)] *)
Definition reduce_sum (t : tensor) (axis : nat) (keep_dims : bool) : tensor :=
  if keep_dims then
    mkT (set_at axis 1 (shape t))
        (fun idx => nsum (fun k => get t (set_at axis k idx))
                         (nth axis (shape t) 0))
  else
    mkT (remove_at axis (shape t))
        (fun idx => nsum (fun k => get t (insert_at axis k idx))
                         (nth axis (shape t) 0)).

(** [tf.norm(t, axis, keep_dims=True)], the Euclidean norm. *)
Definition norm (t : tensor) (axis : nat) : tensor :=
  tmap nsqrt (reduce_sum (mul t t) axis true).

(** [tf.nn.softmax(t, dim)] is [exp(t) / reduce_sum(exp(t), dim)]. *)
Definition softmax (t : tensor) (dim : nat) : tensor :=
  div (tmap nexp t) (reduce_sum (tmap nexp t) dim true).

(** [tf.concat([a, b], axis)] *)
Definition concat (a b : tensor) (axis : nat) : tensor :=
  let da := nth axis (shape a) 0 in
  mkT (set_at axis (da + nth axis (shape b) 0) (shape a))
      (fun idx =>
         let k := nth axis idx 0 in
         if k <? da then get a idx else get b (set_at axis (k - da) idx)).

(** [tf.split(t, sizes, axis)] *)
Fixpoint split_from (t : tensor) (sizes : list nat) (axis off : nat)
  : list tensor :=
  match sizes with
  | [] => []
  | sz :: rest =>
      mkT (set_at axis sz (shape t))
          (fun idx => get t (set_at axis (nth axis idx 0 + off) idx))
      :: split_from t rest axis (off + sz)
  end.

Definition split (t : tensor) (sizes : list nat) (axis : nat) : list tensor :=
  split_from t sizes axis 0.

(** [tf.expand_dims(t, axis)]; a negative axis counts from the end. *)
Definition expand_dims (t : tensor) (axis : Z) : tensor :=
  let p := if (axis <? 0)%Z
           then Z.to_nat (Z.of_nat (length (shape t)) + 1 + axis)
           else Z.to_nat axis in
  mkT (insert_at p 1 (shape t)) (fun idx => get t (remove_at p idx)).

(** [tf.tile(t, multiples)] *)
Definition tile (t : tensor) (multiples : list nat) : tensor :=
  mkT (zip_with Nat.mul (shape t) multiples)
      (fun idx => get t (zip_with Nat.modulo idx (shape t))).

(** [tf.reshape(t, dims)]; one entry of [dims] may be -1 and is inferred. *)
Definition known_size (dims : list Z) : nat :=
  prod (map Z.to_nat (filter (fun d => (0 <=? d)%Z) dims)).

Definition reshape (t : tensor) (dims : list Z) : tensor :=
  let s := map (fun d => if (d <? 0)%Z
                         then prod (shape t) / known_size dims
                         else Z.to_nat d) dims in
  mkT s (fun idx => get t (unravel (shape t) (ravel s idx 0))).

(* ================================================================== *)
(** ** Python lists and TensorArray *)

(** [l[i] = v] *)
Definition list_setitem {A : Type} (l : list A) (i : nat) (v : A)
  : result (list A) :=
  if i <? length l then Ok (firstn i l ++ v :: skipn (S i) l)
  else Err IndexError.

(** [tf.TensorArray(size=n, clear_after_read=False)]: [n] slots, empty at
    first. *)
Definition TensorArray : Type := list (option tensor).

Definition new_array (size : nat) : TensorArray := repeat None size.

(** [ta.write(i, v)].  Calling it only adds a node to the graph, it cannot
    raise; the kernel fails for a slot outside the array, which the loop
    condition [i < num_routing] excludes (lemma [loop_writes_in_range]), and
    which leaves the array as it is here. *)
Definition write (ta : TensorArray) (i : nat) (v : tensor) : TensorArray :=
  if i <? length ta then firstn i ta ++ Some v :: skipn (S i) ta else ta.

(** [ta.read(i)]: fails when the graph runs if [i] is outside the array or
    the slot was never written. *)
Definition read (ta : TensorArray) (i : Z) : result tensor :=
  if (i <? 0)%Z then Err InvalidArgumentError
  else match nth_error ta (Z.to_nat i) with
       | Some (Some v) => Ok v
       | _ => Err InvalidArgumentError
       end.

(* ================================================================== *)
(** ** capsule_utils.py *)

(** [_squash(in_tensor)] *)
Definition _squash (in_tensor : tensor) : tensor :=
  let norm := norm in_tensor 2 in
  let norm_squared := mul norm norm in
  mul (div in_tensor norm) (div norm_squared (add (scalar 1) norm_squared)).

(** [_leaky_routing(logits, out_dim)] *)
Definition _leaky_routing (logits : tensor) (out_dim : nat) : tensor :=
  let leak := zeros_like logits in
  let leak := reduce_sum leak 2 true in
  let leaky_logits := concat leak logits 2 in
  let leaky_routing := softmax leaky_logits 2 in
  nth 1 (split leaky_routing [1; out_dim] 2) (scalar 0).

(** [base += [i + 4]] for [i] in [range(n)] *)
Definition extend_axes (base : list nat) (n : nat) : list nat :=
  base ++ map (fun i => i + 4) (seq 0 n).

(** The loop variables [(i, logits, activations)]. *)
Definition loop_vars : Type := (nat * tensor * TensorArray)%type.

(** [tf.while_loop(cond, body, loop_vars)].  [body] is called once on the
    loop variables while the graph is built, so an exception raised by its
    Python code surfaces whatever the trip count; the loop then runs. *)
Fixpoint run_loop (fuel : nat) (cond : loop_vars -> bool)
         (body : loop_vars -> result loop_vars) (st : loop_vars)
  : result loop_vars :=
  if cond st then
    match fuel with
    | 0 => Err OutOfFuel
    | S fuel' => st' <- body st ;; run_loop fuel' cond body st'
    end
  else Ok st.

Definition while_loop (fuel : nat) (cond : loop_vars -> bool)
           (body : loop_vars -> result loop_vars) (st : loop_vars)
  : result loop_vars :=
  _ <- body st ;; run_loop fuel cond body st.

(** [for i in range(n): tf.add_to_collection('visual', activations.read(i))] *)
Fixpoint add_reads (activations : TensorArray) (i n : nat)
         (visual : list tensor) : result (list tensor) :=
  match n with
  | 0 => Ok visual
  | S n' =>
      a <- read activations (Z.of_nat i) ;;
      add_reads activations (S i) n' (visual ++ [a])
  end.

Section UpdateRouting.

Variables (votes biases : tensor) (logit_shape : list nat).
Variables (num_ranks in_dim out_dim : nat) (leaky : bool).

Definition votes_t_shape : list nat := extend_axes [3; 0; 1; 2] (num_ranks - 4).
Definition r_t_shape : list nat := extend_axes [1; 2; 3; 0] (num_ranks - 4).
Definition votes_trans : tensor := transpose votes votes_t_shape.

(** The routing coefficients of one iteration. *)
Definition route_of (logits : tensor) : tensor :=
  if leaky then _leaky_routing logits out_dim else softmax logits 2.

(** The weighted sum of the votes plus the bias, and the activation, of one
    iteration. *)
Definition preactivate_of (logits : tensor) : tensor :=
  let route := route_of logits in
  let preact_unrolled := mul route votes_trans in
  let preact_trans := transpose preact_unrolled r_t_shape in
  add (reduce_sum preact_trans 1 false) biases.

Definition activation_of (logits : tensor) : tensor :=
  let preactivate := preactivate_of logits in
  _squash preactivate.

(** The agreement of the votes with an activation. *)
Definition distances_of (tile_shape : list nat) (activation : tensor)
  : tensor :=
  let act_3d := expand_dims activation 1 in
  let act_replicated := tile act_3d tile_shape in
  reduce_sum (mul votes act_replicated) 3 false.

(** [_body(i, logits, activations)] *)
Definition _body (st : loop_vars) : result loop_vars :=
  let '(i, logits, activations) := st in
  let activation := activation_of logits in
  let activations := write activations i activation in
  tile_shape <- list_setitem (repeat 1 num_ranks) 1 in_dim ;;
  let distances := distances_of tile_shape activation in
  let logits := add logits distances in
  Ok (i + 1, logits, activations).

(** [_update_routing(votes, biases, logit_shape, num_ranks, in_dim,
    out_dim, leaky, num_routing)].  [visual] is the graph collection of
    that name before the call; the result pairs the returned tensor with
    the collection after the call. *)
Definition _update_routing (num_routing : nat) (visual : list tensor)
  : result (tensor * list tensor) :=
  let activations := new_array num_routing in
  let logits := fill logit_shape 0 in
  st <- while_loop num_routing (fun '(i, _, _) => i <? num_routing) _body
                   (0, logits, activations) ;;
  let '(_, _, activations) := st in
  visual <- add_reads activations 0 num_routing visual ;;
  out <- read activations (Z.of_nat num_routing - 1) ;;
  Ok (out, visual).

End UpdateRouting.

(** The dense vote transform, the block [Wx_plus_b] of [capsule]. *)
Definition Wx_plus_b (in_tensor weights : tensor)
           (in_dim out_dim out_atoms : nat) : tensor :=
  let in_tiled := tile (expand_dims in_tensor (-1))
                       [1; 1; 1; out_dim * out_atoms] in
  let votes := reduce_sum (mul in_tiled weights) 2 false in
  reshape votes [(-1)%Z; Z.of_nat in_dim; Z.of_nat out_dim; Z.of_nat out_atoms].

(** [capsule(in_tensor, in_dim, in_atoms, out_dim, out_atoms, layer_name,
    leaky, num_routing)].  The variables [weights] and [biases] come from the
    parameter provider [models.layers.variables] and are arguments here. *)
Definition capsule (in_tensor : tensor) (in_dim in_atoms out_dim out_atoms : nat)
           (weights biases : tensor) (leaky : bool) (num_routing : nat)
           (visual : list tensor) : result (tensor * list tensor) :=
  let votes_reshaped := Wx_plus_b in_tensor weights in_dim out_dim out_atoms in
  let in_shape := shape in_tensor in
  let logit_shape := [nth 0 in_shape 0; in_dim; out_dim] in
  _update_routing votes_reshaped biases logit_shape 1 in_dim out_dim leaky
                  num_routing visual.

(* ================================================================== *)
(** ** The convolutional layer *)

(** The padding argument of [tf.nn.conv2d], ['SAME'] or ['VALID']. *)
Inductive padding : Type := SAME | VALID.

(** Size of an output axis for an input axis of size [n], a kernel of size
    [k] and a stride [s]: [ceil(n / s)] for ['SAME'] and
    [ceil((n - k + 1) / s)] for ['VALID'].  (The library refuses a kernel
    larger than the image with ['VALID']; the size is 0 here.) *)
Definition out_size (p : padding) (n k s : nat) : nat :=
  match p with
  | SAME => (n + s - 1) / s
  | VALID => (n + s - k) / s
  end.

(** Rows (columns) of zeros added before the image: half, rounded down, of
    what the windows need beyond the image. *)
Definition pad_before (p : padding) (n k s : nat) : nat :=
  match p with
  | SAME => ((out_size SAME n k s - 1) * s + k - n) / 2
  | VALID => 0
  end.

(** The image [input] (NCHW) extended by zeros, read at row [py] and column
    [px] of the extended image. *)
Definition padded (input : tensor) (top left n c py px : nat) : num :=
  if (top <=? py) && (py - top <? nth 2 (shape input) 0)
     && (left <=? px) && (px - left <? nth 3 (shape input) 0)
  then get input [n; c; py - top; px - left]
  else Some 0%R.

(** [tf.nn.conv2d(input, filter, strides, padding, data_format='NCHW')] with
    [input] of shape [[N, C, H, W]] and [filter] of shape
    [[kh, kw, C, out_channels]]. *)
Definition conv2d (input filter : tensor) (strides : list nat) (p : padding)
  : tensor :=
  let H := nth 2 (shape input) 0 in
  let W := nth 3 (shape input) 0 in
  let kh := nth 0 (shape filter) 0 in
  let kw := nth 1 (shape filter) 0 in
  let sh := nth 2 strides 0 in
  let sw := nth 3 strides 0 in
  let top := pad_before p H kh sh in
  let left := pad_before p W kw sw in
  mkT [nth 0 (shape input) 0; nth 3 (shape filter) 0;
       out_size p H kh sh; out_size p W kw sw]
      (fun idx =>
         let n := nth 0 idx 0 in
         let oc := nth 1 idx 0 in
         let y := nth 2 idx 0 in
         let x := nth 3 idx 0 in
         nsum (fun i =>
           nsum (fun j =>
             nsum (fun c =>
               nmul (padded input top left n c (y * sh + i) (x * sw + j))
                    (get filter [i; j; c; oc]))
                  (nth 2 (shape filter) 0))
                kw)
              kh).

(** [_depthwise_conv3d(in_tensor, in_dim, in_atoms, out_dim, out_atoms,
    kernel, stride, padding)].  Returns the votes, the shape of the 2D
    convolution and the shape of the input; the votes are added to the
    collection [visual]. *)
Definition _depthwise_conv3d (in_tensor : tensor)
           (in_dim in_atoms out_dim out_atoms : nat) (kernel : tensor)
           (stride : nat) (p : padding) (visual : list tensor)
  : (tensor * list nat * list nat) * list tensor :=
  let in_shape := shape in_tensor in
  let in_tensor_reshaped :=
    reshape in_tensor
            (map Z.of_nat [nth 0 in_shape 0 * in_dim; in_atoms;
                           nth 3 in_shape 0; nth 4 in_shape 0]) in
  let conv := conv2d in_tensor_reshaped kernel [1; 1; stride; stride] p in
  let conv_shape := shape conv in
  let conv_reshaped :=
    reshape conv
            (map Z.of_nat [nth 0 in_shape 0; in_dim; out_dim; out_atoms;
                           nth 2 conv_shape 0; nth 3 conv_shape 0]) in
  ((conv_reshaped, conv_shape, in_shape), visual ++ [conv_reshaped]).

(** [conv_slim_capsule(in_tensor, in_dim, in_atoms, out_dim, out_atoms,
    layer_name, kernel_size, stride, padding, leaky, num_routing)].  The
    variables [kernel], of shape
    [[kernel_size, kernel_size, in_atoms, out_dim * out_atoms]], and
    [biases], of shape [[out_dim, out_atoms, 1, 1]], come from the parameter
    provider and are arguments here. *)
Definition conv_slim_capsule (in_tensor : tensor)
           (in_dim in_atoms out_dim out_atoms : nat) (kernel biases : tensor)
           (stride : nat) (p : padding) (leaky : bool) (num_routing : nat)
           (visual : list tensor) : result (tensor * list tensor) :=
  let '((votes, votes_shape, in_shape), visual) :=
    _depthwise_conv3d in_tensor in_dim in_atoms out_dim out_atoms kernel
                      stride p visual in
  let logit_shape := [nth 0 in_shape 0; in_dim; out_dim;
                      nth 2 votes_shape 0; nth 3 votes_shape 0] in
  let biases_replicated :=
    tile biases [1; 1; nth 2 votes_shape 0; nth 3 votes_shape 0] in
  _update_routing votes biases_replicated logit_shape 6 in_dim out_dim leaky
                  num_routing visual.

(* ================================================================== *)
(** ** layer_visual.py *)


(** Number of elements of an array, and the sum of its elements in row-major
    order. *)
Definition size (t : tensor) : nat := prod (shape t).

Definition flat (t : tensor) (n : nat) : num := get t (unravel (shape t) n).

Definition tsum (t : tensor) : num := nsum (flat t) (size t).

(** [t.mean()]: the sum divided by the number of elements (not a number for
    an empty array). *)
Definition mean (t : tensor) : num := ndiv (tsum t) (Some (INR (size t))).




(** [np.squeeze(t, axis)]: ValueError, here [None], when the axis does not
    have size 1. *)
Definition squeeze (t : tensor) (axis : nat) : option tensor :=
  if nth axis (shape t) 0 =? 1
  then Some (mkT (remove_at axis (shape t))
                 (fun idx => get t (insert_at axis 0 idx)))
  else None.

(** [_squeeze_transpose(img)] *)
Definition _squeeze_transpose (img : tensor) : option tensor :=
  match squeeze img 0 with
  | Some img => Some (transpose img [1; 2; 0])
  | None => None
  end.







(* ================================================================== *)
(** ** svhn_input.py *)

(** What this module can raise: the exceptions of Python while [inputs]
    runs, a tensor refused by an image operation when the graph is built,
    and the exceptions of [error]. *)
Inductive input_error : Type :=
| AssertionError      (* a failed [assert] *)
| ZeroDivisionError   (* [/] or [//] by zero *)
| ValueError          (* a tensor of the wrong rank or with an empty axis *)
| Raised (e : error).

(** [tf.random_crop(value, size)]: the window of shape [size] at
    [offset = rnd % (shape - size + 1)], where [rnd] is the vector of
    integers drawn by [random_uniform], one for each axis.  A window larger
    than the value fails the assertion [value.shape >= size] of the
    operation when it runs. *)
Definition random_crop (value : tensor) (size : list nat) (rnd : nat -> nat)
  : input_error + tensor :=
  if negb (length size =? length (shape value)) then inl ValueError
  else if forallb (fun p => fst p <=? snd p) (combine size (shape value))
  then
    let limit := zip_with (fun d k => d - k + 1) (shape value) size in
    let offset := map (fun i => rnd i mod nth i limit 1)
                      (seq 0 (length size)) in
    inr (mkT size (fun idx => get value (zip_with Nat.add offset idx)))
  else inl (Raised InvalidArgumentError).

(** [tf.image.resize_image_with_crop_or_pad(image, target_height,
    target_width)] on an image [[height, width, channels]] or a batch of
    them: an axis that is too long is cropped around its centre, one that is
    too short is extended by zeros on both sides.  The library computes
    [offset_crop = max(-diff // 2, 0)] and [offset_pad = max(diff // 2, 0)]
    for [diff = target - size]; on natural numbers the subtraction stops at
    0. *)
Definition resize_image_with_crop_or_pad (image : tensor)
           (target_height target_width : nat) : input_error + tensor :=
  let rank := length (shape image) in
  if negb ((rank =? 3) || (rank =? 4)) then inl ValueError
  else if existsb (fun d => d =? 0) (shape image) then inl ValueError
  else if (target_height =? 0) || (target_width =? 0) then inl ValueError
  else
    let h := rank - 3 in
    let w := rank - 2 in
    let height := nth h (shape image) 0 in
    let width := nth w (shape image) 0 in
    let offset_crop_width := (width - target_width) / 2 in
    let offset_pad_width := (target_width - width) / 2 in
    let offset_crop_height := (height - target_height) / 2 in
    let offset_pad_height := (target_height - height) / 2 in
    inr (mkT (set_at h target_height (set_at w target_width (shape image)))
             (fun idx =>
                let y := nth h idx 0 in
                let x := nth w idx 0 in
                if (offset_pad_height <=? y)
                   && (y <? offset_pad_height + Nat.min target_height height)
                   && (offset_pad_width <=? x)
                   && (x <? offset_pad_width + Nat.min target_width width)
                then get image
                         (set_at h (y - offset_pad_height + offset_crop_height)
                            (set_at w (x - offset_pad_width + offset_crop_width)
                               idx))
                else Some 0%R)).

(** [tf.one_hot(indices, depth)]: a new last axis of size [depth] holding 1
    at the position of the index and 0 elsewhere. *)
Definition one_hot (indices : tensor) (depth : nat) : tensor :=
  mkT (shape indices ++ [depth])
      (fun idx =>
         match get indices (removelast idx) with
         | Some l => if Req_dec_T l (INR (last idx 0))
                     then Some 1%R else Some 0%R
         | None => Some 0%R
         end).

(** The dictionary [specs]; the two entries that start as [None] are
    options. *)
Record specs : Type := mkSpecs {
  specs_split : String.string;
  specs_total_size : option Z;
  specs_steps_per_epoch : option Z;
  specs_total_batch_size : Z;
  specs_num_gpus : Z;
  specs_batch_size : Z;
  specs_max_epochs : Z;
  specs_image_size : Z;
  specs_depth : Z;
  specs_num_classes : Z;
  specs_distort : bool }.

Definition set_total_size (v : Z) (s : specs) : specs :=
  mkSpecs (specs_split s) (Some v) (specs_steps_per_epoch s)
          (specs_total_batch_size s) (specs_num_gpus s) (specs_batch_size s)
          (specs_max_epochs s) (specs_image_size s) (specs_depth s)
          (specs_num_classes s) (specs_distort s).

Definition set_steps_per_epoch (v : Z) (s : specs) : specs :=
  mkSpecs (specs_split s) (specs_total_size s) (Some v)
          (specs_total_batch_size s) (specs_num_gpus s) (specs_batch_size s)
          (specs_max_epochs s) (specs_image_size s) (specs_depth s)
          (specs_num_classes s) (specs_distort s).

Definition set_image_size (v : Z) (s : specs) : specs :=
  mkSpecs (specs_split s) (specs_total_size s) (specs_steps_per_epoch s)
          (specs_total_batch_size s) (specs_num_gpus s) (specs_batch_size s)
          (specs_max_epochs s) v (specs_depth s)
          (specs_num_classes s) (specs_distort s).

(** The dictionaries [feature] and [batched_feature]. *)
Record feature : Type := mkFeature {
  feature_image : tensor;
  feature_label : tensor }.

Record batched_feature : Type := mkBatched {
  batched_images : tensor;
  batched_labels : tensor }.

(** [_single_process(image, label, specs)]; [rnd] is the draw of the random
    crop. *)
Definition _single_process (image label : tensor) (specs : specs)
           (rnd : nat -> nat) : input_error + feature :=
  let cropped :=
    if specs_distort specs then
      let cropped_size := 24 in
      if String.eqb (specs_split specs) "train" then
        random_crop image [cropped_size; cropped_size; 3] rnd
      else if String.eqb (specs_split specs) "test" then
        resize_image_with_crop_or_pad image cropped_size cropped_size
      else inr image
    else inr image in
  match cropped with
  | inr image =>
    let image := tmap (fun v => nmul v (Some (1 / 255)%R)) image in
    let image := transpose image [2; 0; 1] in
    inr (mkFeature image (one_hot label 10))
  | inl e => inl e
  end.

(** [_feature_process(feature)] *)
Definition _feature_process (feature : feature) : batched_feature :=
  mkBatched (feature_image feature) (feature_label feature).

(** The dictionary [specs] that [inputs(total_batch_size, num_gpus,
    max_epochs, data_dir, split, distort)] returns beside the dataset;
    [images] and [labels] are the arrays read by [load_svhn].  The numbers
    are Python integers; [int(a / b)] drops the fractional part of the
    quotient, [a // b] rounds it down. *)
Definition inputs_specs (total_batch_size num_gpus max_epochs : Z)
           (images labels : tensor) (split : String.string) (distort : bool)
  : input_error + specs :=
  if negb (String.eqb split "train" || String.eqb split "test")
  then inl AssertionError
  else if (num_gpus =? 0)%Z then inl ZeroDivisionError
  else
    let specs :=
      mkSpecs split None None total_batch_size num_gpus
              (Z.quot total_batch_size num_gpus) max_epochs
              32 3 10 distort in
    match shape images, shape labels with
    | n :: _, m :: _ =>
      if negb (n =? m) then inl AssertionError
      else
        let specs := set_total_size (Z.of_nat n) specs in
        if (specs_total_batch_size specs =? 0)%Z then inl ZeroDivisionError
        else
          let specs :=
            set_steps_per_epoch
              (Z.of_nat n / specs_total_batch_size specs)%Z specs in
          let specs := set_image_size 24 specs in
          inr specs
    | _, _ => inl (Raised IndexError)
    end.

(* ================================================================== *)
(** ** Vocabulary of the statements *)

(** The Euclidean norm of the vector that [t] holds along the atoms axis
    (axis 2) at the position of [idx]. *)
Definition norm_at (t : tensor) (idx : list nat) : num :=
  nsqrt (nsum (fun k => nmul (get t (set_at 2 k idx)) (get t (set_at 2 k idx)))
              (nth 2 (shape t) 0)).

(** Two tensors with the same shape and the same elements. *)
Definition same_tensor (t u : tensor) : Prop :=
  shape t = shape u /\ forall idx, in_range (shape t) idx -> get t idx = get u idx.

(** [rsum f n] is [f 0 + ... + f (n-1)] over the reals. *)
Fixpoint rsum (f : nat -> R) (n : nat) : R :=
  match n with
  | 0 => 0%R
  | S k => (rsum f k + f k)%R
  end.

Definition zero_capsule : tensor := fill [1; 1; 2] 0.

(** The trace of the routing loop: the logits before iteration [k] (counting
    from 0), the activation and the agreement computed in iteration [k], and
    the activation array once [k] iterations have run. *)
Section RoutingTrace.

Variables (votes biases : tensor) (logit_shape : list nat).
Variables (num_ranks in_dim out_dim : nat) (leaky : bool).

Definition tile_shape_of : list nat := 1 :: in_dim :: repeat 1 (num_ranks - 2).

Definition agreement (logits : tensor) : tensor :=
  distances_of votes tile_shape_of
               (activation_of votes biases num_ranks out_dim leaky logits).

Fixpoint logits_at (k : nat) : tensor :=
  match k with
  | 0 => fill logit_shape 0
  | S k' => add (logits_at k') (agreement (logits_at k'))
  end.

Definition activation_at (k : nat) : tensor :=
  activation_of votes biases num_ranks out_dim leaky (logits_at k).

Definition agreement_at (k : nat) : tensor := agreement (logits_at k).

Definition array_at (size k : nat) : TensorArray :=
  map (fun i => Some (activation_at i)) (seq 0 k) ++ repeat None (size - k).

End RoutingTrace.

(** The reference computation for a single routing iteration, written from
    the specification: every vote is weighted by the same coefficient,
    [1/out_dim] in standard routing and [1/(out_dim+1)] in leaky routing, the
    weighted votes are summed over the input capsules (axis 1), the bias is
    added and the sum is squashed. *)
Definition uniform_coefficient (leaky : bool) (out_dim : nat) : R :=
  if leaky then (1 / (INR out_dim + 1))%R else (1 / INR out_dim)%R.

Definition single_pass_reference (votes biases : tensor) (leaky : bool)
           (out_dim : nat) : tensor :=
  let c := uniform_coefficient leaky out_dim in
  let weighted := tmap (nmul (Some c)) votes in
  _squash (add (reduce_sum weighted 1 false) biases).


(** A dense layer with one capsule of one atom on each side. *)
Definition unit_votes : tensor := fill [1; 1; 1; 1] 1.
Definition unit_biases : tensor := fill [1; 1] 0.
Definition unit_input : tensor := fill [1; 1; 1] 1.
Definition unit_weights : tensor := fill [1; 1; 1] 1.

(** The number held by an element, and tensors that hold only numbers. *)
Definition val (a : num) : R :=
  match a with
  | Some x => x
  | None => 0%R
  end.

Definition finite_on (t : tensor) : Prop :=
  forall idx, in_range (shape t) idx -> exists x, get t idx = Some x.

Definition nan_capsule : tensor :=
  mkT [1; 1; 2] (fun idx => if nth 2 idx 0 =? 0 then None else Some 1%R).

(** Two batches of one capsule: the vector (1, 1) twice, and the vector
    (1, 1) followed by a vector that is not finite. *)
Definition pair_of_ones : tensor := fill [2; 1; 2] 1.
Definition one_and_nan : tensor :=
  mkT [2; 1; 2] (fun idx => if nth 0 idx 0 =? 0 then Some 1%R else None).

(** An element that is zero or not a finite number. *)
Definition zero_or_nan (a : num) : Prop := a = Some 0%R \/ a = None.

(** A tensor whose elements are all zero. *)
Definition all_zero (t : tensor) : Prop :=
  forall idx, in_range (shape t) idx -> get t idx = Some 0%R.

(** The input of the convolutional layer, of shape [[B, I, C, H, W]],
    extended by zeros around the image, read at row [py] and column [px] of
    the extended image of atom [c] of input capsule [i] of batch [b]. *)
Definition padded5 (in_tensor : tensor) (top left b i c py px : nat) : num :=
  if (top <=? py) && (py - top <? nth 3 (shape in_tensor) 0)
     && (left <=? px) && (px - left <? nth 4 (shape in_tensor) 0)
  then get in_tensor [b; i; c; py - top; px - left]
  else Some 0%R.

(** A convolutional layer on a 2 x 2 image with one capsule of one atom on
    each side and a 1 x 1 kernel. *)
Definition conv_input : tensor := fill [1; 1; 1; 2; 2] 1.
Definition conv_kernel : tensor := fill [1; 1; 1; 1] 1.
Definition conv_biases : tensor := fill [1; 1; 1; 1] 0.

(** Votes for two batch elements of a dense layer with one capsule of one
    atom on each side: all ones, and ones for the first batch element only,
    the second one holding no number. *)
Definition two_batch_votes : tensor := fill [2; 1; 1; 1] 1.
Definition two_batch_votes_nan : tensor :=
  mkT [2; 1; 1; 1] (fun idx => if nth 0 idx 0 =? 0 then Some 1%R else None).





(** Two SVHN images of 32 x 32 pixels with their labels, one of them with
    the label 5 alone, the dictionaries [specs] of the two splits, without
    [distort] for the third one, and the feature made of the single image
    when it is not cropped. *)
Definition svhn_images : tensor := fill [2; 32; 32; 3] 51.
Definition svhn_labels : tensor := fill [2; 1] 5.
Definition svhn_image : tensor := fill [32; 32; 3] 51.
Definition svhn_label : tensor := mkT [1] (fun _ => Some (INR 5)).
Definition test_specs : specs :=
  mkSpecs "test"%string (Some 2%Z) (Some 1%Z) 2 1 2 1 24 3 10 true.
Definition train_specs : specs :=
  mkSpecs "train"%string (Some 2%Z) (Some 1%Z) 2 1 2 1 24 3 10 true.
Definition plain_specs : specs :=
  mkSpecs "test"%string (Some 2%Z) (Some 1%Z) 2 1 2 1 24 3 10 false.
Definition svhn_feature : feature :=
  mkFeature
    (transpose (tmap (fun v => nmul v (Some (1 / 255)%R)) svhn_image)
               [2; 0; 1])
    (one_hot svhn_label 10).

(* ================================================================== *)
(** * Properties *)

(** ** Lists of axes *)

Lemma zip_with_length {A B C} (f : A -> B -> C) l m :
  length (zip_with f l m) = Nat.min (length l) (length m).
Proof.
  revert m; induction l as [|a l IH]; intros [|b m]; simpl; auto.
Qed.

Lemma in_range_length s idx : in_range s idx -> length idx = length s.
Proof. unfold in_range; induction 1; simpl; congruence. Qed.

Lemma in_range_nth s idx ax :
  in_range s idx -> ax < length s -> nth ax idx 0 < nth ax s 0.
Proof.
  unfold in_range; intros H; revert ax.
  induction H as [|i d idx s Hid H IH]; intros [|ax] Hax; simpl in *;
    try lia; auto.
  apply IH; lia.
Qed.

Lemma in_range_set_at s idx ax k :
  in_range s idx -> k < nth ax s 0 -> in_range s (set_at ax k idx).
Proof.
  unfold in_range, set_at; intros H; revert ax.
  induction H as [|i d idx s Hid H IH]; intros [|ax] Hk; simpl in *;
    try lia.
  - constructor; auto.
  - constructor; auto.
Qed.

Lemma in_range_set_at_keep s idx ax :
  in_range s idx -> ax < length s ->
  in_range (set_at ax 1 s) (set_at ax 0 idx).
Proof.
  unfold in_range, set_at; intros H; revert ax.
  induction H as [|i d idx s Hid H IH]; intros [|ax] Hax; simpl in *;
    try lia.
  - constructor; auto.
  - constructor; auto. apply IH; lia.
Qed.

Lemma in_range_set_both s idx ax d k :
  in_range s idx -> ax < length s -> k < d ->
  in_range (set_at ax d s) (set_at ax k idx).
Proof.
  unfold in_range, set_at; intros H; revert ax.
  induction H as [|i d' idx s Hid H IH]; intros [|ax] Hax Hk; simpl in *;
    try lia.
  - constructor; auto.
  - constructor; auto. apply IH; auto; lia.
Qed.

Lemma set_at_set_at ax j k l :
  ax < length l -> set_at ax k (set_at ax j l) = set_at ax k l.
Proof.
  unfold set_at; revert ax; induction l as [|x l IH]; intros [|ax] H;
    simpl in *; try lia; auto.
  f_equal; apply IH; lia.
Qed.

Lemma set_at_nth ax l : ax < length l -> set_at ax (nth ax l 0) l = l.
Proof.
  unfold set_at; revert ax; induction l as [|x l IH]; intros [|ax] H;
    simpl in *; try lia; auto.
  f_equal; apply IH; lia.
Qed.

Lemma nth_set_at ax k l : ax < length l -> nth ax (set_at ax k l) 0 = k.
Proof.
  unfold set_at; revert ax; induction l as [|x l IH]; intros [|ax] H;
    simpl in *; try lia; auto.
  apply IH; lia.
Qed.

Lemma length_set_at ax k l : ax < length l -> length (set_at ax k l) = length l.
Proof.
  unfold set_at; revert ax; induction l as [|x l IH]; intros [|ax] H;
    simpl in *; try lia; auto.
  rewrite IH; lia.
Qed.

(** ** Broadcasting *)

Lemma zip_bdim_same s : zip_with bdim s s = s.
Proof.
  induction s as [|d s IH]; simpl; auto.
  rewrite IH; unfold bdim; destruct (d =? 1) eqn:E; auto.
Qed.

Lemma bshape_same s : bshape s s = s.
Proof.
  unfold bshape, pad_shape; rewrite Nat.max_id, Nat.sub_diag; simpl.
  apply zip_bdim_same.
Qed.

Lemma zip_bdim_ones s : zip_with bdim (repeat 1 (length s)) s = s.
Proof. induction s as [|d s IH]; simpl; auto. now rewrite IH. Qed.

Lemma bshape_same_eq s s' : s' = s -> bshape s s' = s.
Proof. intros ->; apply bshape_same. Qed.

Lemma bshape_nil_l s : bshape [] s = s.
Proof.
  unfold bshape, pad_shape; simpl.
  rewrite Nat.sub_0_r, Nat.sub_diag, app_nil_r; simpl.
  apply zip_bdim_ones.
Qed.

Lemma zip_bdim_keep ax s :
  ax < length s -> zip_with bdim s (set_at ax 1 s) = s.
Proof.
  unfold set_at; revert ax; induction s as [|d s IH]; intros [|ax] H;
    simpl in *; try lia.
  - rewrite zip_bdim_same; unfold bdim; destruct (d =? 1) eqn:E; auto.
    apply Nat.eqb_eq in E; now subst.
  - rewrite IH by lia; unfold bdim; destruct (d =? 1) eqn:E; auto.
Qed.

Lemma bshape_keep ax s : ax < length s -> bshape s (set_at ax 1 s) = s.
Proof.
  intros H; unfold bshape, pad_shape.
  rewrite length_set_at, Nat.max_id, Nat.sub_diag by assumption; simpl.
  now apply zip_bdim_keep.
Qed.

Lemma zip_bidx_in_range s idx :
  in_range s idx -> zip_with (fun d i => if d =? 1 then 0 else i) s idx = idx.
Proof.
  unfold in_range; induction 1 as [|i d idx s Hid H IH]; simpl; auto.
  rewrite IH; destruct (d =? 1) eqn:E; auto.
  apply Nat.eqb_eq in E; f_equal; lia.
Qed.

Lemma bidx_in_range s idx : in_range s idx -> bidx s idx = idx.
Proof.
  intros H; unfold bidx.
  rewrite (in_range_length _ _ H), Nat.sub_diag; simpl.
  now apply zip_bidx_in_range.
Qed.

Lemma bidx_keep ax s idx :
  in_range s idx -> ax < length s ->
  bidx (set_at ax 1 s) idx = set_at ax 0 idx.
Proof.
  intros H Hax; unfold bidx.
  rewrite length_set_at, (in_range_length _ _ H), Nat.sub_diag by assumption.
  simpl; revert ax Hax; unfold in_range in H.
  induction H as [|i d idx s Hid H IH]; intros [|ax] Hax; simpl in *;
    try lia.
  - unfold set_at; simpl; f_equal.
    now apply zip_bidx_in_range.
  - unfold set_at in *; simpl; rewrite IH by lia.
    destruct (d =? 1) eqn:E; auto.
    apply Nat.eqb_eq in E; f_equal; lia.
Qed.

Lemma bidx_nil idx : bidx [] idx = [].
Proof. reflexivity. Qed.

(** ** Elementwise operations *)

Lemma nsum_ext f g n :
  (forall k, k < n -> f k = g k) -> nsum f n = nsum g n.
Proof.
  induction n as [|n IH]; intros H; simpl; auto.
  rewrite IH, H by (auto; intros; apply H; lia); reflexivity.
Qed.

Lemma shape_b2_same f a b :
  shape b = shape a -> shape (broadcast2 f a b) = shape a.
Proof. intros E; simpl; rewrite E; apply bshape_same. Qed.

Lemma get_b2_same f a b idx :
  shape b = shape a -> in_range (shape a) idx ->
  get (broadcast2 f a b) idx = f (get a idx) (get b idx).
Proof. intros E H; simpl; rewrite E, bidx_in_range by assumption; auto. Qed.

Lemma shape_b2_keep f a b ax :
  shape b = set_at ax 1 (shape a) -> ax < length (shape a) ->
  shape (broadcast2 f a b) = shape a.
Proof. intros E H; simpl; rewrite E; now apply bshape_keep. Qed.

Lemma get_b2_keep f a b ax idx :
  shape b = set_at ax 1 (shape a) -> ax < length (shape a) ->
  in_range (shape a) idx ->
  get (broadcast2 f a b) idx = f (get a idx) (get b (set_at ax 0 idx)).
Proof.
  intros E Hax H; simpl.
  rewrite E, bidx_in_range, bidx_keep by assumption; auto.
Qed.

Lemma shape_b2_scalar f x b : shape (broadcast2 f (scalar x) b) = shape b.
Proof. simpl; apply bshape_nil_l. Qed.

Lemma get_b2_scalar f x b idx :
  in_range (shape b) idx ->
  get (broadcast2 f (scalar x) b) idx = f (Some x) (get b idx).
Proof. intros H; simpl; rewrite bidx_in_range by assumption; auto. Qed.

(** ** The norm along an axis *)

Lemma shape_norm t ax : shape (norm t ax) = set_at ax 1 (shape t).
Proof. unfold norm, mul; simpl; now rewrite bshape_same. Qed.

Lemma get_norm_keep t idx :
  in_range (shape t) idx -> 2 < length (shape t) ->
  get (norm t 2) (set_at 2 0 idx) = norm_at t idx.
Proof.
  intros H Hr; unfold norm, norm_at, mul; simpl.
  rewrite bshape_same; f_equal; apply nsum_ext; intros k Hk.
  rewrite set_at_set_at by (rewrite (in_range_length _ _ H); lia).
  rewrite bidx_in_range by (now apply in_range_set_at); reflexivity.
Qed.

(** ** Squash *)

Lemma squash_shape t : 2 < length (shape t) -> shape (_squash t) = shape t.
Proof.
  intros Hr; unfold _squash, mul, div, add.
  assert (En : shape (norm t 2) = set_at 2 1 (shape t)) by apply shape_norm.
  assert (E1 : shape (broadcast2 ndiv t (norm t 2)) = shape t)
    by (now apply shape_b2_keep with (ax := 2)).
  assert (E2 : shape (broadcast2 nmul (norm t 2) (norm t 2))
               = set_at 2 1 (shape t))
    by (rewrite shape_b2_same; auto).
  etransitivity; [apply shape_b2_keep with (ax := 2) | exact E1];
    rewrite E1; auto.
  rewrite shape_b2_same; auto.
  now rewrite shape_b2_scalar.
Qed.

Lemma squash_get t idx :
  in_range (shape t) idx -> 2 < length (shape t) ->
  get (_squash t) idx =
  nmul (ndiv (get t idx) (norm_at t idx))
       (ndiv (nmul (norm_at t idx) (norm_at t idx))
             (nadd (Some 1%R) (nmul (norm_at t idx) (norm_at t idx)))).
Proof.
  intros H Hr; unfold _squash, mul, div, add.
  assert (En : shape (norm t 2) = set_at 2 1 (shape t)) by apply shape_norm.
  assert (E1 : shape (broadcast2 ndiv t (norm t 2)) = shape t)
    by (now apply shape_b2_keep with (ax := 2)).
  assert (E2 : shape (broadcast2 nmul (norm t 2) (norm t 2))
               = set_at 2 1 (shape t))
    by (rewrite shape_b2_same; auto).
  assert (H0 : in_range (set_at 2 1 (shape t)) (set_at 2 0 idx))
    by (now apply in_range_set_at_keep).
  rewrite get_b2_keep with (ax := 2); rewrite ?E1; auto.
  2:{ rewrite shape_b2_same; auto. now rewrite shape_b2_scalar. }
  rewrite get_b2_keep with (ax := 2) by auto.
  rewrite get_b2_same; rewrite ?E2; auto.
  2:{ now rewrite shape_b2_scalar. }
  rewrite get_b2_scalar by (now rewrite E2).
  rewrite get_b2_same by (now rewrite ?En).
  now rewrite get_norm_keep.
Qed.

Lemma nsum_some f g n :
  (forall k, k < n -> f k = Some (g k)) -> nsum f n = Some (rsum g n).
Proof.
  induction n as [|n IH]; intros H; simpl; auto.
  rewrite IH, H by (auto; intros; apply H; lia); reflexivity.
Qed.


Lemma rsum_scal c f n :
  rsum (fun k => c * f k)%R n = (c * rsum f n)%R.
Proof. induction n as [|n IH]; simpl; [lra | rewrite IH; lra]. Qed.

Lemma rsum_zero n : rsum (fun _ => 0%R) n = 0%R.
Proof. induction n as [|n IH]; simpl; [reflexivity | rewrite IH; lra]. Qed.

Lemma rsum_sq_nonneg v n : (0 <= rsum (fun k => v k * v k) n)%R.
Proof. induction n as [|n IH]; simpl; [lra | nra]. Qed.

Lemma nsqrt_nonneg x : (0 <= x)%R -> nsqrt (Some x) = Some (sqrt x).
Proof. intros H; unfold nsqrt; destruct (Rlt_dec x 0); [lra | reflexivity]. Qed.

Lemma ndiv_nonzero x y : y <> 0%R -> ndiv (Some x) (Some y) = Some (x / y)%R.
Proof. intros H; unfold ndiv; destruct (Req_dec_T y 0); [tauto | reflexivity]. Qed.

Lemma norm_at_finite t idx v :
  (forall k, k < nth 2 (shape t) 0 -> get t (set_at 2 k idx) = Some (v k)) ->
  norm_at t idx
  = Some (sqrt (rsum (fun k => v k * v k)%R (nth 2 (shape t) 0))).
Proof.
  intros H; unfold norm_at.
  rewrite nsum_some with (g := fun k => (v k * v k)%R).
  - apply nsqrt_nonneg, rsum_sq_nonneg.
  - intros k Hk; now rewrite H.
Qed.

Lemma norm_at_set_at t idx k :
  2 < length idx -> norm_at t (set_at 2 k idx) = norm_at t idx.
Proof.
  intros H; unfold norm_at; f_equal; apply nsum_ext; intros j _.
  now rewrite set_at_set_at.
Qed.

(** The value of squash on a vector with finite components and a norm that
    is not zero. *)
Lemma squash_finite t idx v :
  2 < length (shape t) -> in_range (shape t) idx ->
  (forall k, k < nth 2 (shape t) 0 -> get t (set_at 2 k idx) = Some (v k)) ->
  let n := sqrt (rsum (fun k => v k * v k)%R (nth 2 (shape t) 0)) in
  n <> 0%R ->
  forall k, k < nth 2 (shape t) 0 ->
    get (_squash t) (set_at 2 k idx)
    = Some (v k / n * (n * n / (1 + n * n)))%R.
Proof.
  intros Hr H Hv n Hn k Hk.
  assert (Hl : 2 < length idx) by (rewrite (in_range_length _ _ H); lia).
  rewrite squash_get by (auto using in_range_set_at).
  rewrite norm_at_set_at, (norm_at_finite t idx v) by auto.
  fold n; rewrite Hv by auto.
  rewrite ndiv_nonzero by auto.
  unfold nmul, nadd, lift2.
  rewrite ndiv_nonzero by nra.
  reflexivity.
Qed.

(** With a norm of exactly zero the quotient [in_tensor / norm] is not a
    finite number, and neither is the result. *)
Lemma squash_zero_norm t idx :
  2 < length (shape t) -> in_range (shape t) idx ->
  norm_at t idx = Some 0%R -> get (_squash t) idx = None.
Proof.
  intros Hr H Hn; rewrite squash_get, Hn by auto.
  destruct (get t idx) as [x|]; simpl; auto.
  destruct (Req_dec_T 0 0); [reflexivity | tauto].
Qed.

Lemma norm_at_zero_vector t idx :
  (forall k, k < nth 2 (shape t) 0 -> get t (set_at 2 k idx) = Some 0%R) ->
  norm_at t idx = Some 0%R.
Proof.
  intros H; rewrite (norm_at_finite t idx (fun _ => 0%R)) by auto.
  f_equal.
  cbv beta; rewrite (rsum_scal 0 (fun _ => 0%R)), Rmult_0_l; apply sqrt_0.
Qed.



(** C9, as the code has it: [_squash] adds no epsilon to the norm.  On a
    vector whose components are all zero the norm is exactly zero, the
    quotient [in_tensor / norm] is 0/0, and every component of the result is
    a value that is not a finite number. *)
Theorem squash_zero_vector t idx :
  2 < length (shape t) -> in_range (shape t) idx ->
  (forall k, k < nth 2 (shape t) 0 -> get t (set_at 2 k idx) = Some 0%R) ->
  norm_at t idx = Some 0%R /\
  forall k, k < nth 2 (shape t) 0 -> get (_squash t) (set_at 2 k idx) = None.
Proof.
  intros Hr H Hz; split; [now apply norm_at_zero_vector|].
  intros k Hk; apply squash_zero_norm; auto using in_range_set_at.
  rewrite norm_at_set_at by (rewrite (in_range_length _ _ H); lia).
  now apply norm_at_zero_vector.
Qed.

Lemma squash_zero_vector_witness :
  norm_at zero_capsule [0; 0; 0] = Some 0%R /\
  forall k, k < 2 -> get (_squash zero_capsule) (set_at 2 k [0; 0; 0]) = None.
Proof.
  apply (squash_zero_vector zero_capsule [0; 0; 0]).
  - simpl; lia.
  - repeat constructor.
  - reflexivity.
Defined.

(** C9, as the specification has it, fails: squash of the zero vector is
    not a finite number, so it is not approximately zero. *)
Lemma squash_zero_not_finite :
  ~ exists x : R, get (_squash zero_capsule) [0; 0; 0] = Some x.
Proof.
  intros [x Hx].
  rewrite squash_zero_norm in Hx; try discriminate.
  - simpl; lia.
  - repeat constructor.
  - now apply norm_at_zero_vector.
Qed.

(** ** Softmax and the leak channel *)

Lemma softmax_shape t : 2 < length (shape t) -> shape (softmax t 2) = shape t.
Proof.
  intros Hr; unfold softmax, div.
  exact (shape_b2_keep ndiv (tmap nexp t)
                       (reduce_sum (tmap nexp t) 2 true) 2 eq_refl Hr).
Qed.

Lemma softmax_get t j :
  in_range (shape t) j -> 2 < length (shape t) ->
  get (softmax t 2) j
  = ndiv (nexp (get t j))
         (nsum (fun k => nexp (get t (set_at 2 k j))) (nth 2 (shape t) 0)).
Proof.
  intros H Hr; unfold softmax, div.
  rewrite (get_b2_keep ndiv (tmap nexp t)
                       (reduce_sum (tmap nexp t) 2 true) 2 j eq_refl Hr H).
  simpl; f_equal; apply nsum_ext; intros k _.
  rewrite set_at_set_at; auto.
  rewrite (in_range_length _ _ H); lia.
Qed.

Lemma rsum_exp_pos x n : 0 < n -> (0 < rsum (fun k => exp (x k)) n)%R.
Proof.
  induction n as [|n IH]; [lia|]; intros _; simpl.
  pose proof (exp_pos (x n)).
  destruct n; [simpl; lra|].
  assert (0 < rsum (fun k => exp (x k)) (S n))%R by (apply IH; lia); lra.
Qed.

Lemma rsum_exp_nonneg x n : (0 <= rsum (fun k => exp (x k)) n)%R.
Proof.
  destruct n; [simpl; lra|]; left; apply rsum_exp_pos; lia.
Qed.

Lemma rsum_shift y n :
  rsum y (S n) = (y 0%nat + rsum (fun k => y (S k)) n)%R.
Proof.
  induction n as [|n IH]; [simpl; lra|].
  change (rsum y (S (S n))) with (rsum y (S n) + y (S n))%R.
  rewrite IH; simpl; lra.
Qed.

Lemma rsum_div y d n :
  rsum (fun k => y k / d)%R n = (rsum y n / d)%R.
Proof.
  unfold Rdiv; induction n as [|n IH]; simpl; [lra | rewrite IH; lra].
Qed.

(** The coefficients of standard routing at one position. *)
Lemma softmax_coefficient t idx x k :
  2 < length (shape t) -> in_range (shape t) idx ->
  (forall m, m < nth 2 (shape t) 0 -> get t (set_at 2 m idx) = Some (x m)) ->
  k < nth 2 (shape t) 0 ->
  get (softmax t 2) (set_at 2 k idx)
  = Some (exp (x k) / rsum (fun m => exp (x m)) (nth 2 (shape t) 0)%nat)%R.
Proof.
  intros Hr H Hx Hk.
  assert (Hl : 2 < length idx) by (rewrite (in_range_length _ _ H); lia).
  rewrite softmax_get by (auto using in_range_set_at).
  rewrite nsum_some with (g := fun m => exp (x m)).
  - rewrite Hx by auto; simpl.
    apply ndiv_nonzero, Rgt_not_eq, rsum_exp_pos; lia.
  - intros m Hm; rewrite set_at_set_at, Hx by auto; reflexivity.
Qed.

Lemma leaky_logits_shape t :
  2 < length (shape t) ->
  shape (concat (reduce_sum (zeros_like t) 2 true) t 2)
  = set_at 2 (1 + nth 2 (shape t) 0) (shape t).
Proof.
  intros Hr; simpl; rewrite nth_set_at, set_at_set_at by auto; reflexivity.
Qed.

Lemma leaky_logits_get t idx x m :
  2 < length (shape t) -> in_range (shape t) idx ->
  (forall k, k < nth 2 (shape t) 0 -> get t (set_at 2 k idx) = Some (x k)) ->
  m < 1 + nth 2 (shape t) 0 ->
  get (concat (reduce_sum (zeros_like t) 2 true) t 2) (set_at 2 m idx)
  = Some (match m with 0 => 0%R | S k => x k end).
Proof.
  intros Hr H Hx Hm.
  assert (Hl : 2 < length idx) by (rewrite (in_range_length _ _ H); lia).
  cbn [concat get shape reduce_sum zeros_like fill].
  rewrite !nth_set_at by auto.
  destruct m as [|k].
  - change (0 <? 1) with true; cbv iota.
    rewrite nsum_some with (g := fun _ => 0%R) by reflexivity.
    f_equal; apply rsum_zero.
  - replace (S k <? 1) with false by (symmetry; apply Nat.ltb_ge; lia).
    rewrite set_at_set_at by auto.
    replace (S k - 1) with k by lia.
    apply Hx; lia.
Qed.

Lemma leaky_coefficient t idx x k :
  2 < length (shape t) -> in_range (shape t) idx ->
  (forall m, m < nth 2 (shape t) 0 -> get t (set_at 2 m idx) = Some (x m)) ->
  k < nth 2 (shape t) 0 ->
  get (_leaky_routing t (nth 2 (shape t) 0)) (set_at 2 k idx)
  = Some (exp (x k)
          / (exp 0 + rsum (fun m => exp (x m)) (nth 2 (shape t) 0)%nat))%R.
Proof.
  intros Hr H Hx Hk.
  assert (Hl : 2 < length idx) by (rewrite (in_range_length _ _ H); lia).
  unfold _leaky_routing.
  set (ll := concat (reduce_sum (zeros_like t) 2 true) t 2).
  assert (Es : shape ll = set_at 2 (1 + nth 2 (shape t) 0) (shape t))
    by (now apply leaky_logits_shape).
  assert (Hrl : 2 < length (shape ll))
    by (rewrite Es, length_set_at; auto).
  assert (Hd : nth 2 (shape ll) 0 = 1 + nth 2 (shape t) 0)
    by (rewrite Es, nth_set_at; auto).
  assert (Hin : in_range (shape ll) (set_at 2 (k + 1) idx)).
  { rewrite Es; apply in_range_set_both; auto; lia. }
  cbn [split split_from nth get].
  rewrite nth_set_at, set_at_set_at by auto.
  rewrite softmax_get by auto.
  rewrite Hd.
  rewrite nsum_some
    with (g := fun m => exp (match m with 0 => 0%R | S j => x j end)).
  - unfold ll; replace (k + (0 + 1)) with (S k) by lia.
    rewrite leaky_logits_get with (x := x) by (auto; lia).
    cbn [nexp]; rewrite ndiv_nonzero.
    + rewrite rsum_shift; reflexivity.
    + rewrite rsum_shift.
      pose proof (exp_pos 0).
      pose proof (rsum_exp_nonneg x (nth 2 (shape t) 0)); lra.
  - intros m Hm; rewrite set_at_set_at by auto.
    unfold ll; rewrite leaky_logits_get with (x := x) by auto.
    reflexivity.
Qed.

Lemma softmax_sum_one t idx x :
  2 < length (shape t) -> in_range (shape t) idx ->
  (forall k, k < nth 2 (shape t) 0 -> get t (set_at 2 k idx) = Some (x k)) ->
  nsum (fun k => get (softmax t 2) (set_at 2 k idx)) (nth 2 (shape t) 0)
  = Some 1%R.
Proof.
  intros Hr H Hx.
  assert (Hpos : 0 < nth 2 (shape t) 0).
  { pose proof (in_range_nth _ _ 2 H Hr); lia. }
  pose proof (rsum_exp_pos x _ Hpos) as HS.
  set (S := rsum (fun m => exp (x m)) (nth 2 (shape t) 0)) in *.
  rewrite nsum_some with (g := fun k => (exp (x k) / S)%R)
    by (intros; now apply softmax_coefficient).
  rewrite rsum_div; fold S; f_equal; field; lra.
Qed.

Lemma leaky_sum_below_one t idx x :
  2 < length (shape t) -> in_range (shape t) idx ->
  (forall k, k < nth 2 (shape t) 0 -> get t (set_at 2 k idx) = Some (x k)) ->
  exists s,
    nsum (fun k => get (_leaky_routing t (nth 2 (shape t) 0)) (set_at 2 k idx))
         (nth 2 (shape t) 0) = Some s /\ (0 < s < 1)%R.
Proof.
  intros Hr H Hx.
  assert (Hpos : 0 < nth 2 (shape t) 0).
  { pose proof (in_range_nth _ _ 2 H Hr); lia. }
  pose proof (rsum_exp_pos x _ Hpos) as HS.
  set (S := rsum (fun m => exp (x m)) (nth 2 (shape t) 0)) in *.
  exists (S / (exp 0 + S))%R; split.
  - rewrite nsum_some with (g := fun k => (exp (x k) / (exp 0 + S))%R)
      by (intros; now apply leaky_coefficient).
    rewrite rsum_div; reflexivity.
  - pose proof (exp_pos 0) as He; split.
    + apply Rmult_lt_0_compat; [lra | apply Rinv_0_lt_compat; lra].
    + apply Rmult_lt_reg_r with (r := (exp 0 + S)%R); [lra|].
      unfold Rdiv; rewrite Rmult_assoc, Rinv_l by lra; lra.
Qed.


(** ** Broadcasting against one more leading axis *)

Lemma bshape_cons_r s d : bshape s (d :: s) = d :: s.
Proof.
  unfold bshape, pad_shape; simpl length.
  replace (Nat.max (length s) (S (length s))) with (S (length s)) by lia.
  replace (S (length s) - length s) with 1 by lia.
  rewrite Nat.sub_diag; simpl; now rewrite zip_bdim_same.
Qed.

Lemma bshape_cons_l s d : bshape (d :: s) s = d :: s.
Proof.
  unfold bshape, pad_shape; simpl length.
  replace (Nat.max (S (length s)) (length s)) with (S (length s)) by lia.
  replace (S (length s) - length s) with 1 by lia.
  rewrite Nat.sub_diag; simpl; rewrite zip_bdim_same.
  unfold bdim; destruct (d =? 1) eqn:E; auto.
  apply Nat.eqb_eq in E; now subst.
Qed.

Lemma bidx_tail s idx a : in_range s idx -> bidx s (a :: idx) = idx.
Proof.
  intros H; unfold bidx; simpl length.
  rewrite (in_range_length _ _ H).
  replace (S (length s) - length s) with 1 by lia; simpl.
  now apply zip_bidx_in_range.
Qed.

(** ** Tiling *)

Lemma zip_mod_in_range s idx :
  in_range s idx -> zip_with Nat.modulo idx s = idx.
Proof.
  unfold in_range; induction 1 as [|i d idx s Hid H IH]; simpl; auto.
  rewrite IH, Nat.mod_small by assumption; reflexivity.
Qed.

Lemma zip_mul_ones s : zip_with Nat.mul s (repeat 1 (length s)) = s.
Proof.
  induction s as [|d s IH]; simpl; auto.
  now rewrite IH, Nat.mul_1_r.
Qed.

(** ** The two transpositions of the routing loop *)

Lemma index_of_shifted k s n :
  s <= k < s + n ->
  index_of (k + 4) (map (fun i => i + 4) (seq s n)) = k - s.
Proof.
  revert s; induction n as [|n IH]; intros s H; [lia|]; simpl.
  destruct (k + 4 =? s + 4) eqn:E.
  - apply Nat.eqb_eq in E; lia.
  - apply Nat.eqb_neq in E; rewrite IH by lia; lia.
Qed.

Lemma map_nth_seq_from (l : list nat) s :
  map (fun ax => nth (ax - s) l 0) (seq s (length l)) = l.
Proof.
  revert s; induction l as [|a l IH]; intros s; simpl; auto.
  rewrite Nat.sub_diag; f_equal.
  transitivity (map (fun ax => nth (ax - S s) l 0) (seq (S s) (length l)));
    [| apply IH].
  apply map_ext_in; intros ax Hax; apply in_seq in Hax.
  replace (ax - s) with (S (ax - S s)) by lia; reflexivity.
Qed.

Lemma map_nth_shifted (x0 x1 x2 x3 : nat) (l : list nat) :
  map (fun p => nth p (x0 :: x1 :: x2 :: x3 :: l) 0)
      (map (fun i => i + 4) (seq 0 (length l))) = l.
Proof.
  rewrite map_map.
  transitivity (map (fun ax => nth (ax - 0) l 0) (seq 0 (length l)));
    [| apply map_nth_seq_from].
  apply map_ext; intros k.
  replace (k + 4) with (S (S (S (S k)))) by lia.
  now rewrite Nat.sub_0_r.
Qed.

Lemma transpose_tail_index (q0 q1 q2 q3 i0 i1 i2 i3 : nat) (x : list nat) :
  q0 < 4 -> q1 < 4 -> q2 < 4 -> q3 < 4 ->
  map (fun ax =>
         nth (index_of ax (q0 :: q1 :: q2 :: q3
                              :: map (fun i => i + 4) (seq 0 (length x))))
             (i0 :: i1 :: i2 :: i3 :: x) 0)
      (seq 4 (length x)) = x.
Proof.
  intros H0 H1 H2 H3.
  transitivity (map (fun ax => nth (ax - 4) x 0) (seq 4 (length x)));
    [| apply map_nth_seq_from].
  apply map_ext_in; intros ax Hax; apply in_seq in Hax.
  replace ax with ((ax - 4) + 4) at 1 by lia.
  cbn [index_of].
  repeat match goal with
         | |- context [?k + 4 =? ?q] =>
             replace (k + 4 =? q) with false
               by (symmetry; apply Nat.eqb_neq; lia)
         end.
  rewrite index_of_shifted by lia.
  now rewrite Nat.sub_0_r.
Qed.

Lemma votes_trans_shape t B I O A sp :
  shape t = B :: I :: O :: A :: sp ->
  shape (transpose t (extend_axes [3; 0; 1; 2] (length sp)))
  = A :: B :: I :: O :: sp.
Proof.
  intros E; unfold transpose, extend_axes; cbn [shape].
  rewrite E; rewrite map_app; cbn [map nth app].
  do 4 f_equal; apply map_nth_shifted.
Qed.

Lemma votes_trans_get t a b i j x :
  get (transpose t (extend_axes [3; 0; 1; 2] (length x))) (a :: b :: i :: j :: x)
  = get t (b :: i :: j :: a :: x).
Proof.
  unfold transpose, extend_axes; cbn [get app length].
  rewrite length_map, length_seq; cbn [seq map].
  rewrite transpose_tail_index by lia; reflexivity.
Qed.

Lemma preact_trans_shape t B I O A sp :
  shape t = A :: B :: I :: O :: sp ->
  shape (transpose t (extend_axes [1; 2; 3; 0] (length sp)))
  = B :: I :: O :: A :: sp.
Proof.
  intros E; unfold transpose, extend_axes; cbn [shape].
  rewrite E; rewrite map_app; cbn [map nth app].
  do 4 f_equal; apply map_nth_shifted.
Qed.

Lemma preact_trans_get t a b i j x :
  get (transpose t (extend_axes [1; 2; 3; 0] (length x))) (b :: i :: j :: a :: x)
  = get t (a :: b :: i :: j :: x).
Proof.
  unfold transpose, extend_axes; cbn [get app length].
  rewrite length_map, length_seq; cbn [seq map].
  rewrite transpose_tail_index by lia; reflexivity.
Qed.

(** ** The routing loop *)

Lemma run_loop_step fuel cond body st :
  cond st = true ->
  run_loop (S fuel) cond body st
  = (st' <- body st ;; run_loop fuel cond body st').
Proof. intros H; simpl; now rewrite H. Qed.

Lemma run_loop_done fuel cond body st :
  cond st = false -> run_loop fuel cond body st = Ok st.
Proof. intros H; destruct fuel; simpl; now rewrite H. Qed.

Section Loop.

Variables (votes biases : tensor).
Variables (num_ranks in_dim out_dim : nat) (leaky : bool).

Let body := _body votes biases num_ranks in_dim out_dim leaky.

Lemma tile_shape_assigned :
  2 <= num_ranks ->
  list_setitem (repeat 1 num_ranks) 1 in_dim
  = Ok (tile_shape_of num_ranks in_dim).
Proof.
  intros H; unfold list_setitem, tile_shape_of.
  rewrite repeat_length.
  replace (1 <? num_ranks) with true by (symmetry; apply Nat.ltb_lt; lia).
  destruct num_ranks as [|[|n]]; try lia; simpl.
  now rewrite Nat.sub_0_r.
Qed.

Lemma tile_shape_missing :
  num_ranks < 2 -> list_setitem (repeat 1 num_ranks) 1 in_dim = Err IndexError.
Proof.
  intros H; unfold list_setitem; rewrite repeat_length.
  replace (1 <? num_ranks) with false by (symmetry; apply Nat.ltb_ge; lia).
  reflexivity.
Qed.

Lemma body_ok i logits activations :
  2 <= num_ranks ->
  body (i, logits, activations)
  = Ok (i + 1,
        add logits (agreement votes biases num_ranks in_dim out_dim leaky logits),
        write activations i
              (activation_of votes biases num_ranks out_dim leaky logits)).
Proof.
  intros H; unfold body, _body.
  rewrite tile_shape_assigned by assumption; reflexivity.
Qed.

Lemma body_raises st : num_ranks < 2 -> body st = Err IndexError.
Proof.
  intros H; destruct st as [[i logits] activations]; unfold body, _body.
  rewrite tile_shape_missing by assumption; reflexivity.
Qed.

Variable logit_shape : list nat.

Let L := logits_at votes biases logit_shape num_ranks in_dim out_dim leaky.
Let act := activation_at votes biases logit_shape num_ranks in_dim out_dim leaky.
Let arr := array_at votes biases logit_shape num_ranks in_dim out_dim leaky.

Lemma array_at_length n k : k <= n -> length (arr n k) = n.
Proof.
  intros H; unfold arr, array_at.
  rewrite length_app, length_map, length_seq, repeat_length; lia.
Qed.

Lemma write_array_at n k :
  k < n -> write (arr n k) k (act k) = arr n (S k).
Proof.
  intros H; unfold write; rewrite array_at_length by lia.
  replace (k <? n) with true by (symmetry; apply Nat.ltb_lt; lia).
  unfold arr, array_at; fold act.
  set (pre := map (fun i => Some (act i)) (seq 0 k)).
  assert (Hp : length pre = k) by (unfold pre; now rewrite length_map, length_seq).
  rewrite firstn_app, skipn_app, Hp, Nat.sub_diag.
  rewrite firstn_all2, skipn_all2 by lia.
  replace (S k - k) with 1 by lia.
  replace (n - k) with (S (n - S k)) by lia.
  rewrite seq_S, map_app; simpl.
  rewrite app_nil_r, <- app_assoc; reflexivity.
Qed.

(** The slot written in the loop is inside the array. *)
Lemma loop_writes_in_range n k :
  k < n -> (k <? length (arr n k)) = true.
Proof. intros H; rewrite array_at_length by lia; now apply Nat.ltb_lt. Qed.

Lemma run_loop_trace n :
  2 <= num_ranks ->
  forall fuel k, k <= n -> n <= k + fuel ->
    run_loop fuel (fun '(i, _, _) => i <? n) body (k, L k, arr n k)
    = Ok (n, L n, arr n n).
Proof.
  intros Hr; induction fuel as [|fuel IH]; intros k Hk Hf.
  - assert (k = n) by lia; subst k.
    apply run_loop_done; cbv beta iota; apply Nat.ltb_irrefl.
  - destruct (Nat.eq_dec k n) as [->|Hne].
    { apply run_loop_done; cbv beta iota; apply Nat.ltb_irrefl. }
    rewrite run_loop_step by (cbv beta iota; apply Nat.ltb_lt; lia).
    rewrite body_ok by assumption; cbn [bind].
    change (activation_of votes biases num_ranks out_dim leaky (L k))
      with (act k).
    rewrite write_array_at by lia.
    replace (k + 1) with (S k) by lia.
    apply (IH (S k)); lia.
Qed.

Lemma while_loop_trace n fuel :
  2 <= num_ranks -> n <= fuel ->
  while_loop fuel (fun '(i, _, _) => i <? n) body
             (0, fill logit_shape 0, new_array n)
  = Ok (n, L n, arr n n).
Proof.
  intros Hr Hf; unfold while_loop.
  rewrite body_ok by assumption; cbn [bind].
  change (fill logit_shape 0) with (L 0).
  replace (new_array n) with (arr n 0)
    by (unfold arr, array_at, new_array; simpl; now rewrite Nat.sub_0_r).
  apply run_loop_trace; auto; lia.
Qed.

Lemma add_reads_trace n visual :
  forall m i, i + m <= n ->
    add_reads (arr n n) i m visual = Ok (visual ++ map act (seq i m)).
Proof.
  intros m; revert visual; induction m as [|m IH]; intros visual i H; simpl.
  - now rewrite app_nil_r.
  - unfold read.
    replace (Z.of_nat i <? 0)%Z with false by (symmetry; apply Z.ltb_ge; lia).
    rewrite Nat2Z.id.
    unfold arr, array_at at 1; rewrite Nat.sub_diag, app_nil_r.
    rewrite nth_error_map, nth_error_nth' with (d := 0)
      by (rewrite length_seq; lia).
    rewrite seq_nth by lia; simpl.
    rewrite IH by lia; now rewrite <- app_assoc.
Qed.

Lemma read_last n :
  1 <= n -> read (arr n n) (Z.of_nat n - 1) = Ok (act (n - 1)).
Proof.
  intros H; unfold read.
  replace (Z.of_nat n - 1 <? 0)%Z with false by (symmetry; apply Z.ltb_ge; lia).
  replace (Z.to_nat (Z.of_nat n - 1)) with (n - 1) by lia.
  unfold arr, array_at; rewrite Nat.sub_diag, app_nil_r.
  rewrite nth_error_map, nth_error_nth' with (d := 0)
    by (rewrite length_seq; lia).
  rewrite seq_nth by lia; reflexivity.
Qed.

Lemma update_routing_trace n visual :
  2 <= num_ranks -> 1 <= n ->
  _update_routing votes biases logit_shape num_ranks in_dim out_dim leaky
                  n visual
  = Ok (act (n - 1), visual ++ map act (seq 0 n)).
Proof.
  intros Hr Hn; unfold _update_routing.
  fold body; rewrite while_loop_trace by auto; cbn [bind].
  rewrite add_reads_trace by lia; cbn [bind].
  rewrite read_last by assumption; reflexivity.
Qed.

End Loop.


(** ** Independence from the collection *)



(** ** One routing iteration, element by element *)

Lemma shape_b2_cons_r f a b d :
  shape b = d :: shape a -> shape (broadcast2 f a b) = d :: shape a.
Proof. intros E; simpl; rewrite E; apply bshape_cons_r. Qed.

Lemma get_b2_cons_r f a b d a0 idx :
  shape b = d :: shape a -> in_range (shape a) idx -> a0 < d ->
  get (broadcast2 f a b) (a0 :: idx) = f (get a idx) (get b (a0 :: idx)).
Proof.
  intros E H Ha; simpl.
  rewrite bidx_tail by assumption.
  rewrite bidx_in_range; auto.
  rewrite E; constructor; auto.
Qed.

Lemma shape_b2_cons_l f a b d :
  shape a = d :: shape b -> shape (broadcast2 f a b) = d :: shape b.
Proof. intros E; simpl; rewrite E; apply bshape_cons_l. Qed.

Lemma get_b2_cons_l f a b d a0 idx :
  shape a = d :: shape b -> in_range (shape b) idx -> a0 < d ->
  get (broadcast2 f a b) (a0 :: idx) = f (get a (a0 :: idx)) (get b idx).
Proof.
  intros E H Ha; simpl.
  rewrite (bidx_tail (shape b)) by assumption.
  rewrite bidx_in_range; auto.
  rewrite E; constructor; auto.
Qed.

Lemma expand_dims_axis_1 t :
  expand_dims t 1
  = mkT (insert_at 1 1 (shape t)) (fun idx => get t (remove_at 1 idx)).
Proof. reflexivity. Qed.

Section RoutingStep.

Variables (votes biases : tensor) (leaky : bool).
Variables (B I O A : nat) (sp : list nat).

Hypothesis votes_shape : shape votes = B :: I :: O :: A :: sp.
Hypothesis biases_shape : shape biases = O :: A :: sp.

Let num_ranks := 4 + length sp.

Lemma route_shape logits :
  shape logits = B :: I :: O :: sp ->
  shape (route_of O leaky logits) = B :: I :: O :: sp.
Proof.
  intros E; unfold route_of; destruct leaky.
  - unfold _leaky_routing; cbn [split split_from nth shape].
    rewrite softmax_shape; rewrite leaky_logits_shape;
      rewrite ?E; simpl; auto; lia.
  - rewrite softmax_shape; rewrite E; simpl; auto; lia.
Qed.

Lemma preact_unrolled_shape logits :
  shape logits = B :: I :: O :: sp ->
  shape (mul (route_of O leaky logits) (votes_trans votes num_ranks))
  = A :: B :: I :: O :: sp.
Proof.
  intros E; unfold mul.
  rewrite shape_b2_cons_r with (d := A); rewrite route_shape; auto.
  unfold votes_trans, votes_t_shape, num_ranks.
  replace (4 + length sp - 4) with (length sp) by lia.
  now apply votes_trans_shape.
Qed.

Lemma preactivate_shape logits :
  shape logits = B :: I :: O :: sp ->
  shape (add (reduce_sum
                (transpose (mul (route_of O leaky logits)
                                (votes_trans votes num_ranks))
                           (r_t_shape num_ranks)) 1 false) biases)
  = B :: O :: A :: sp.
Proof.
  intros E; unfold add.
  assert (Et : shape (transpose (mul (route_of O leaky logits)
                                     (votes_trans votes num_ranks))
                                (r_t_shape num_ranks))
               = B :: I :: O :: A :: sp).
  { unfold r_t_shape, num_ranks.
    replace (4 + length sp - 4) with (length sp) by lia.
    now apply preact_trans_shape, preact_unrolled_shape. }
  rewrite shape_b2_cons_l with (d := B); rewrite biases_shape; auto.
  unfold reduce_sum; cbn [shape]; rewrite Et; reflexivity.
Qed.

Lemma preactivate_get logits b j a x :
  shape logits = B :: I :: O :: sp ->
  b < B -> j < O -> a < A -> in_range sp x ->
  get (add (reduce_sum
              (transpose (mul (route_of O leaky logits)
                              (votes_trans votes num_ranks))
                         (r_t_shape num_ranks)) 1 false) biases)
      (b :: j :: a :: x)
  = nadd (nsum (fun i => nmul (get (route_of O leaky logits)
                                   (b :: i :: j :: x))
                              (get votes (b :: i :: j :: a :: x))) I)
         (get biases (j :: a :: x)).
Proof.
  intros E Hb Hj Ha Hx; unfold add.
  pose proof (in_range_length _ _ Hx) as Hlen.
  assert (Eu := preact_unrolled_shape logits E).
  assert (Et : shape (transpose (mul (route_of O leaky logits)
                                     (votes_trans votes num_ranks))
                                (r_t_shape num_ranks))
               = B :: I :: O :: A :: sp).
  { unfold r_t_shape, num_ranks.
    replace (4 + length sp - 4) with (length sp) by lia.
    now apply preact_trans_shape. }
  rewrite get_b2_cons_l with (d := B); auto.
  2:{ rewrite biases_shape; unfold reduce_sum; cbn [shape].
      rewrite Et; reflexivity. }
  2:{ rewrite biases_shape; repeat constructor; auto. }
  f_equal; unfold reduce_sum; cbn [get]; rewrite Et; cbn [nth].
  apply nsum_ext; intros i Hi.
  change (insert_at 1 i (b :: j :: a :: x)) with (b :: i :: j :: a :: x).
  unfold r_t_shape, votes_trans, votes_t_shape, num_ranks.
  replace (4 + length sp - 4) with (length x) by lia.
  rewrite preact_trans_get; unfold mul.
  rewrite get_b2_cons_r with (d := A); auto.
  - now rewrite votes_trans_get.
  - rewrite route_shape by assumption.
    rewrite Hlen; now apply votes_trans_shape.
  - rewrite route_shape by assumption; repeat constructor; auto.
Qed.

Lemma activation_shape logits :
  shape logits = B :: I :: O :: sp ->
  shape (activation_of votes biases num_ranks O leaky logits)
  = B :: O :: A :: sp.
Proof.
  intros E; unfold activation_of, preactivate_of.
  rewrite squash_shape; rewrite preactivate_shape; auto; simpl; lia.
Qed.

Lemma act_replicated_shape act :
  shape act = B :: O :: A :: sp ->
  shape (tile (expand_dims act 1) (tile_shape_of num_ranks I))
  = B :: I :: O :: A :: sp.
Proof.
  intros E; rewrite expand_dims_axis_1.
  unfold tile, tile_shape_of, num_ranks.
  cbn [shape]; rewrite E.
  replace (4 + length sp - 2) with (S (S (length sp))) by lia.
  change (insert_at 1 1 (B :: O :: A :: sp)) with (B :: 1 :: O :: A :: sp).
  cbn [zip_with repeat].
  now rewrite zip_mul_ones, !Nat.mul_1_r, Nat.mul_1_l.
Qed.

Lemma act_replicated_get act b i j a x :
  shape act = B :: O :: A :: sp ->
  b < B -> i < I -> j < O -> a < A -> in_range sp x ->
  get (tile (expand_dims act 1) (tile_shape_of num_ranks I))
      (b :: i :: j :: a :: x)
  = get act (b :: j :: a :: x).
Proof.
  intros E Hb Hi Hj Ha Hx; rewrite expand_dims_axis_1; unfold tile.
  cbn [shape get]; rewrite E.
  change (insert_at 1 1 (B :: O :: A :: sp)) with (B :: 1 :: O :: A :: sp).
  cbn [zip_with].
  rewrite zip_mod_in_range by assumption.
  rewrite (Nat.mod_small b), (Nat.mod_small j), (Nat.mod_small a)
    by assumption.
  rewrite Nat.mod_1_r; reflexivity.
Qed.

Lemma distances_shape act :
  shape act = B :: O :: A :: sp ->
  shape (distances_of votes (tile_shape_of num_ranks I) act)
  = B :: I :: O :: sp.
Proof.
  intros E; unfold distances_of, mul.
  unfold reduce_sum; cbn [shape].
  rewrite shape_b2_same
    by (now rewrite act_replicated_shape, votes_shape).
  rewrite votes_shape; reflexivity.
Qed.

(** The agreement of a vote with an activation is their dot product over
    the atoms; the activation read is that of the output capsule, whatever
    the input capsule. *)
Lemma distances_get act b i j x :
  shape act = B :: O :: A :: sp ->
  b < B -> i < I -> j < O -> in_range sp x ->
  get (distances_of votes (tile_shape_of num_ranks I) act) (b :: i :: j :: x)
  = nsum (fun a => nmul (get votes (b :: i :: j :: a :: x))
                        (get act (b :: j :: a :: x))) A.
Proof.
  intros E Hb Hi Hj Hx; unfold distances_of, mul.
  assert (Er : shape (tile (expand_dims act 1) (tile_shape_of num_ranks I))
               = shape votes)
    by (now rewrite act_replicated_shape, votes_shape).
  unfold reduce_sum; cbn [shape get].
  rewrite shape_b2_same, votes_shape by assumption; cbn [nth].
  apply nsum_ext; intros a Ha.
  change (insert_at 3 a (b :: i :: j :: x)) with (b :: i :: j :: a :: x).
  rewrite get_b2_same
    by (auto; rewrite votes_shape; repeat constructor; auto).
  now rewrite act_replicated_get.
Qed.

End RoutingStep.

(** ** The logits accumulate the agreements *)

Section Accumulation.

Variables (votes biases : tensor) (leaky : bool).
Variables (B I O A : nat) (sp : list nat).

Hypothesis votes_shape : shape votes = B :: I :: O :: A :: sp.
Hypothesis biases_shape : shape biases = O :: A :: sp.

Let num_ranks := 4 + length sp.
Let logit_shape := B :: I :: O :: sp.
Let L := logits_at votes biases logit_shape num_ranks I O leaky.
Let act := activation_at votes biases logit_shape num_ranks I O leaky.

Lemma act_shape_of logits :
  shape logits = logit_shape ->
  shape (activation_of votes biases num_ranks O leaky logits)
  = B :: O :: A :: sp.
Proof. intros E; now apply activation_shape with (I := I). Qed.

Lemma agreement_shape logits :
  shape logits = logit_shape ->
  shape (agreement votes biases num_ranks I O leaky logits) = logit_shape.
Proof.
  intros E; unfold agreement.
  apply distances_shape with (A := A); auto using act_shape_of.
Qed.

Lemma logits_at_shape k : shape (L k) = logit_shape.
Proof.
  induction k as [|k IH]; [reflexivity|].
  unfold L in *; cbn [logits_at]; unfold add.
  rewrite shape_b2_same; auto.
  now rewrite agreement_shape.
Qed.

Lemma logits_at_step k b i j x :
  b < B -> i < I -> j < O -> in_range sp x ->
  get (L (S k)) (b :: i :: j :: x)
  = nadd (get (L k) (b :: i :: j :: x))
         (nsum (fun a => nmul (get votes (b :: i :: j :: a :: x))
                              (get (act k) (b :: j :: a :: x))) A).
Proof.
  intros Hb Hi Hj Hx; unfold L; cbn [logits_at]; fold L; unfold add.
  pose proof (logits_at_shape k) as Es.
  rewrite get_b2_same.
  - f_equal; unfold agreement.
    apply distances_get with (B := B) (O := O); auto.
    now apply act_shape_of.
  - rewrite agreement_shape; auto.
  - rewrite Es; repeat constructor; auto.
Qed.


End Accumulation.


(** ** A single routing iteration *)

Lemma norm_at_ext t u idx :
  same_tensor t u -> in_range (shape t) idx -> 2 < length (shape t) ->
  norm_at t idx = norm_at u idx.
Proof.
  intros [Es Hg] H Hr; unfold norm_at; rewrite <- Es.
  f_equal; apply nsum_ext; intros k Hk.
  rewrite Hg by (now apply in_range_set_at); reflexivity.
Qed.

Lemma squash_ext t u :
  same_tensor t u -> 2 < length (shape t) ->
  same_tensor (_squash t) (_squash u).
Proof.
  intros Htu Hr; pose proof Htu as [Es Hg]; split.
  - rewrite !squash_shape; auto; now rewrite <- Es.
  - intros idx H; rewrite squash_shape in H by assumption.
    rewrite !squash_get; auto; try (now rewrite <- Es).
    now rewrite <- (norm_at_ext t u idx), Hg.
Qed.

Lemma rsum_const c n : rsum (fun _ => c) n = (INR n * c)%R.
Proof.
  induction n as [|n IH]; [simpl; lra|].
  change (rsum (fun _ => c) (S n)) with (rsum (fun _ => c) n + c)%R.
  rewrite IH, S_INR; lra.
Qed.

Section SinglePass.

Variables (votes biases : tensor) (leaky : bool).
Variables (B I O A : nat) (sp : list nat).

Hypothesis votes_shape : shape votes = B :: I :: O :: A :: sp.
Hypothesis biases_shape : shape biases = O :: A :: sp.

Let num_ranks := 4 + length sp.
Let logit_shape := B :: I :: O :: sp.

(** Zero logits give every output capsule the same coefficient. *)
Lemma route_uniform b i j x :
  b < B -> i < I -> j < O -> in_range sp x ->
  get (route_of O leaky (fill logit_shape 0)) (b :: i :: j :: x)
  = Some (uniform_coefficient leaky O).
Proof.
  intros Hb Hi Hj Hx.
  assert (Hin : in_range (shape (fill logit_shape 0)) (b :: i :: j :: x))
    by (repeat constructor; auto).
  assert (HO : INR O <> 0%R) by (apply not_0_INR; lia).
  assert (HO' : (0 < INR O)%R) by (apply lt_0_INR; lia).
  change (b :: i :: j :: x) with (set_at 2 j (b :: i :: j :: x)).
  unfold route_of, uniform_coefficient; destruct leaky.
  - change O with (nth 2 (shape (fill logit_shape 0)) 0) at 1.
    rewrite leaky_coefficient with (x := fun _ => 0%R);
      auto; try (simpl; lia).
    cbn [shape fill nth logit_shape].
    rewrite rsum_const, exp_0; f_equal; field; lra.
  - rewrite softmax_coefficient with (x := fun _ => 0%R);
      auto; try (simpl; lia).
    cbn [shape fill nth logit_shape].
    rewrite rsum_const, exp_0; f_equal; field; lra.
Qed.

Lemma reference_preactivate_shape c :
  shape (add (reduce_sum (tmap (nmul (Some c)) votes) 1 false) biases)
  = B :: O :: A :: sp.
Proof.
  unfold add; rewrite shape_b2_cons_l with (d := B);
    rewrite biases_shape; auto.
  unfold reduce_sum; cbn [shape tmap]; now rewrite votes_shape.
Qed.

Lemma reference_preactivate_get c b j a x :
  b < B -> j < O -> a < A -> in_range sp x ->
  get (add (reduce_sum (tmap (nmul (Some c)) votes) 1 false) biases)
      (b :: j :: a :: x)
  = nadd (nsum (fun i => nmul (Some c) (get votes (b :: i :: j :: a :: x))) I)
         (get biases (j :: a :: x)).
Proof.
  intros Hb Hj Ha Hx; unfold add.
  rewrite get_b2_cons_l with (d := B); auto.
  - unfold reduce_sum; cbn [get shape tmap]; rewrite votes_shape.
    reflexivity.
  - rewrite biases_shape; unfold reduce_sum; cbn [shape tmap].
    now rewrite votes_shape.
  - rewrite biases_shape; repeat constructor; auto.
Qed.

Lemma single_pass_activation :
  same_tensor
    (activation_of votes biases num_ranks O leaky (fill logit_shape 0))
    (single_pass_reference votes biases leaky O).
Proof.
  unfold activation_of, preactivate_of, single_pass_reference.
  assert (Es := preactivate_shape votes biases leaky B I O A sp
                                  votes_shape biases_shape
                                  (fill logit_shape 0) eq_refl).
  apply squash_ext; [split|].
  - now rewrite reference_preactivate_shape.
  - intros idx H; fold num_ranks in Es; rewrite Es in H.
    unfold in_range in H.
    inversion H as [|b dB idx1 s1 Hb H1]; subst.
    inversion H1 as [|j dO idx2 s2 Hj H2]; subst.
    inversion H2 as [|a dA x s3 Ha Hx]; subst.
    rewrite reference_preactivate_get by assumption.
    rewrite (preactivate_get votes biases leaky B I O A sp
                             votes_shape biases_shape) by auto.
    f_equal; apply nsum_ext; intros i Hi.
    now rewrite route_uniform.
  - fold num_ranks in Es; rewrite Es; simpl; lia.
Qed.

End SinglePass.


(** ** The dense vote transform *)

Lemma expand_dims_last3 t d0 d1 d2 :
  shape t = [d0; d1; d2] ->
  expand_dims t (-1)
  = mkT [d0; d1; d2; 1] (fun idx => get t (remove_at 3 idx)).
Proof. intros E; unfold expand_dims; rewrite E; reflexivity. Qed.

Lemma unravel_votes B I O A b i j a :
  i < I -> j < O -> a < A ->
  unravel [B; I; O * A] (((b * I + i) * O + j) * A + a) = [b; i; j * A + a].
Proof.
  intros Hi Hj Ha.
  assert (Hk : j * A + a < O * A) by nia.
  assert (Hr : i * (O * A) + (j * A + a) < I * (O * A)) by nia.
  replace (((b * I + i) * O + j) * A + a)
    with (I * (O * A) * b + (i * (O * A) + (j * A + a))) by nia.
  cbn [unravel prod fold_right]; rewrite !Nat.mul_1_r, Nat.div_1_r.
  assert (E1 : (I * (O * A) * b + (i * (O * A) + (j * A + a))) / (I * (O * A))
               = b)
    by (symmetry; apply Nat.div_unique with (r := i * (O * A) + (j * A + a));
        auto).
  assert (E2 : (I * (O * A) * b + (i * (O * A) + (j * A + a))) mod (I * (O * A))
               = i * (O * A) + (j * A + a))
    by (symmetry; apply Nat.mod_unique with (q := b); auto).
  rewrite E1, E2.
  assert (E3 : (i * (O * A) + (j * A + a)) / (O * A) = i)
    by (symmetry; apply Nat.div_unique with (r := j * A + a); auto; lia).
  assert (E4 : (i * (O * A) + (j * A + a)) mod (O * A) = j * A + a)
    by (symmetry; apply Nat.mod_unique with (q := i); auto; lia).
  now rewrite E3, E4.
Qed.

Lemma reshape_votes_dims n I O A :
  map (fun d => if (d <? 0)%Z then n / known_size
                     [(-1)%Z; Z.of_nat I; Z.of_nat O; Z.of_nat A]
                else Z.to_nat d)
      [(-1)%Z; Z.of_nat I; Z.of_nat O; Z.of_nat A]
  = [n / (I * (O * A)); I; O; A].
Proof.
  assert (Hle : forall k, (0 <=? Z.of_nat k)%Z = true)
    by (intros; apply Z.leb_le; lia).
  assert (Hlt : forall k, (Z.of_nat k <? 0)%Z = false)
    by (intros; apply Z.ltb_ge; lia).
  unfold known_size; cbn [map filter].
  change (0 <=? -1)%Z with false; change (-1 <? 0)%Z with true.
  rewrite !Hle, !Hlt; cbn [map prod fold_right].
  now rewrite !Nat2Z.id, Nat.mul_1_r.
Qed.

Section VoteTransform.

Variables (in_tensor weights : tensor) (B I C O A : nat).

Hypothesis in_shape : shape in_tensor = [B; I; C].
Hypothesis weights_shape : shape weights = [I; C; O * A].

Let in_tiled := tile (expand_dims in_tensor (-1)) [1; 1; 1; O * A].
Let votes := reduce_sum (mul in_tiled weights) 2 false.

Lemma in_tiled_shape : shape in_tiled = [B; I; C; O * A].
Proof.
  unfold in_tiled; rewrite (expand_dims_last3 _ _ _ _ in_shape).
  unfold tile; cbn [shape zip_with].
  now rewrite !Nat.mul_1_r, Nat.mul_1_l.
Qed.

Lemma in_tiled_get b i c k :
  b < B -> i < I -> c < C ->
  get in_tiled [b; i; c; k] = get in_tensor [b; i; c].
Proof.
  intros Hb Hi Hc.
  unfold in_tiled; rewrite (expand_dims_last3 _ _ _ _ in_shape).
  unfold tile; cbn [shape get zip_with].
  rewrite !Nat.mod_small by assumption; reflexivity.
Qed.

Lemma votes_flat_shape : shape votes = [B; I; O * A].
Proof.
  unfold votes, mul.
  change (shape (reduce_sum (broadcast2 nmul in_tiled weights) 2 false))
    with (remove_at 2 (shape (broadcast2 nmul in_tiled weights))).
  rewrite (shape_b2_cons_l nmul in_tiled weights B)
    by (now rewrite in_tiled_shape, weights_shape).
  now rewrite weights_shape.
Qed.

Lemma votes_flat_get b i k :
  b < B -> i < I -> k < O * A ->
  get votes [b; i; k]
  = nsum (fun c => nmul (get in_tensor [b; i; c]) (get weights [i; c; k])) C.
Proof.
  intros Hb Hi Hk; unfold votes, mul.
  assert (Em : shape (broadcast2 nmul in_tiled weights) = [B; I; C; O * A]).
  { rewrite (shape_b2_cons_l nmul in_tiled weights B)
      by (now rewrite in_tiled_shape, weights_shape).
    now rewrite weights_shape. }
  unfold reduce_sum at 1; cbn [get]; rewrite Em; cbn [nth].
  apply nsum_ext; intros c Hc.
  change (insert_at 2 c [b; i; k]) with [b; i; c; k].
  rewrite get_b2_cons_l with (d := B); auto.
  - now rewrite in_tiled_get.
  - now rewrite in_tiled_shape, weights_shape.
  - rewrite weights_shape; repeat constructor; auto.
Qed.

End VoteTransform.

(** C7: for an input of shape [[B, I, C]] and weights of shape
    [[I, C, O*A]] the vote transform of [capsule] has shape [[B, I, O, A]],
    and the vote of input capsule [i] for atom [a] of output capsule [j] is
    the sum over the input atoms [c] of [input[b,i,c] * weights[i,c,j*A+a]]:
    it reads the weights of input capsule [i] only. *)
Theorem dense_vote_transform in_tensor weights B I C O A b i j a :
  shape in_tensor = [B; I; C] ->
  shape weights = [I; C; O * A] ->
  b < B -> i < I -> j < O -> a < A ->
  shape (Wx_plus_b in_tensor weights I O A) = [B; I; O; A] /\
  get (Wx_plus_b in_tensor weights I O A) [b; i; j; a]
  = nsum (fun c => nmul (get in_tensor [b; i; c])
                        (get weights [i; c; j * A + a])) C.
Proof.
  intros Ei Ew Hb Hi Hj Ha.
  assert (Hk : j * A + a < O * A) by nia.
  assert (Es := votes_flat_shape in_tensor weights B I C O A Ei Ew).
  assert (Ed : B * (I * (O * A * 1)) / (I * (O * A)) = B).
  { rewrite Nat.mul_1_r.
    symmetry; apply Nat.div_unique with (r := 0); nia. }
  unfold Wx_plus_b, reshape; cbn [shape get].
  rewrite reshape_votes_dims, Es.
  cbn [prod fold_right]; rewrite Ed; split; [reflexivity|].
  cbn [ravel]; rewrite Nat.mul_0_l, Nat.add_0_l.
  rewrite unravel_votes by assumption.
  now apply votes_flat_get with (B := B) (I := I).
Qed.

(** ** The fully connected layer *)

(** C4, as the code has it: [capsule] passes [num_ranks=1] to the routing
    engine, where the docstring of [_update_routing] asks for the rank 4 of
    the votes.  The tile shape is then the one-element list [[1]], the
    assignment [tile_shape[1] = in_dim] raises IndexError while the loop
    body is traced, and no activation tensor of shape
    [[batch, out_dim, out_atoms]] is returned, whatever the input and the
    configuration. *)
Theorem capsule_raises_index_error
        in_tensor in_dim in_atoms out_dim out_atoms weights biases leaky
        num_routing visual :
  capsule in_tensor in_dim in_atoms out_dim out_atoms weights biases leaky
          num_routing visual
  = Err IndexError.
Proof.
  unfold capsule, _update_routing, while_loop.
  rewrite body_raises by lia; reflexivity.
Qed.

(** The same layer with the documented rank returns an activation. *)
Lemma capsule_with_rank_4 in_tensor in_dim out_dim out_atoms weights biases
      leaky num_routing visual :
  1 <= num_routing ->
  exists out visual',
    _update_routing (Wx_plus_b in_tensor weights in_dim out_dim out_atoms)
                    biases [nth 0 (shape in_tensor) 0; in_dim; out_dim]
                    4 in_dim out_dim leaky num_routing visual
    = Ok (out, visual').
Proof.
  intros H; eexists; eexists.
  rewrite update_routing_trace by (auto; lia); reflexivity.
Qed.

(** ** Configurations the specification calls invalid *)




(** ** The logits stay finite while no squashed vector has norm zero *)

Lemma finite_val (a : num) : (exists x, a = Some x) -> a = Some (val a).
Proof. intros [x ->]; reflexivity. Qed.

Lemma nsum_finite f n :
  (forall k, k < n -> exists x, f k = Some x) -> exists s, nsum f n = Some s.
Proof.
  intros H; exists (rsum (fun k => val (f k)) n).
  apply nsum_some; intros k Hk; now apply finite_val, H.
Qed.

Section Finiteness.

Variables (votes biases : tensor) (leaky : bool).
Variables (B I O A : nat) (sp : list nat).

Hypothesis votes_shape : shape votes = B :: I :: O :: A :: sp.
Hypothesis biases_shape : shape biases = O :: A :: sp.
Hypothesis votes_finite : finite_on votes.
Hypothesis biases_finite : finite_on biases.

Let num_ranks := 4 + length sp.
Let logit_shape := B :: I :: O :: sp.
Let L := logits_at votes biases logit_shape num_ranks I O leaky.
Let P := preactivate_of votes biases num_ranks O leaky.

Lemma logits_along_axis logits b i j x :
  shape logits = logit_shape -> finite_on logits ->
  b < B -> i < I -> j < O -> in_range sp x ->
  forall m, m < nth 2 (shape logits) 0 ->
    get logits (set_at 2 m (b :: i :: j :: x))
    = Some (val (get logits (b :: i :: m :: x))).
Proof.
  intros E Hf Hb Hi Hj Hx m Hm; rewrite E in Hm; cbn [nth logit_shape] in Hm.
  change (set_at 2 m (b :: i :: j :: x)) with (b :: i :: m :: x).
  apply finite_val, Hf; rewrite E; repeat constructor; auto.
Qed.

Lemma route_finite logits b i j x :
  shape logits = logit_shape -> finite_on logits ->
  b < B -> i < I -> j < O -> in_range sp x ->
  exists c, get (route_of O leaky logits) (b :: i :: j :: x) = Some c.
Proof.
  intros E Hf Hb Hi Hj Hx.
  assert (Hr : 2 < length (shape logits)) by (rewrite E; simpl; lia).
  assert (Hin : in_range (shape logits) (b :: i :: j :: x))
    by (rewrite E; repeat constructor; auto).
  assert (EO : nth 2 (shape logits) 0 = O) by (now rewrite E).
  pose proof (logits_along_axis logits b i j x E Hf Hb Hi Hj Hx) as Hv.
  unfold route_of; destruct leaky.
  - pose proof (leaky_coefficient logits (b :: i :: j :: x) _ j Hr Hin Hv) as Hc.
    rewrite EO in Hc; eexists; apply Hc; assumption.
  - pose proof (softmax_coefficient logits (b :: i :: j :: x) _ j Hr Hin Hv)
      as Hc.
    rewrite EO in Hc; eexists; apply Hc; assumption.
Qed.

Lemma preactivate_finite logits b j a x :
  shape logits = logit_shape -> finite_on logits ->
  b < B -> j < O -> a < A -> in_range sp x ->
  exists p, get (P logits) (b :: j :: a :: x) = Some p.
Proof.
  intros E Hf Hb Hj Ha Hx; unfold P, preactivate_of.
  rewrite (preactivate_get votes biases leaky B I O A sp
                           votes_shape biases_shape) by auto.
  destruct (nsum_finite
              (fun i => nmul (get (route_of O leaky logits) (b :: i :: j :: x))
                             (get votes (b :: i :: j :: a :: x))) I)
    as [w Hw].
  - intros i Hi.
    destruct (route_finite logits b i j x) as [c ->]; auto.
    destruct (votes_finite (b :: i :: j :: a :: x)) as [v ->].
    + rewrite votes_shape; repeat constructor; auto.
    + eexists; reflexivity.
  - destruct (biases_finite (j :: a :: x)) as [v Hv].
    + rewrite biases_shape; repeat constructor; auto.
    + rewrite Hw, Hv; eexists; reflexivity.
Qed.

Lemma activation_finite logits b j a x :
  shape logits = logit_shape -> finite_on logits ->
  b < B -> j < O -> a < A -> in_range sp x ->
  norm_at (P logits) (b :: j :: a :: x) <> Some 0%R ->
  exists y,
    get (activation_of votes biases num_ranks O leaky logits) (b :: j :: a :: x)
    = Some y.
Proof.
  intros E Hf Hb Hj Ha Hx Hn.
  assert (Es : shape (P logits) = B :: O :: A :: sp)
    by exact (preactivate_shape votes biases leaky B I O A sp
                                votes_shape biases_shape logits E).
  assert (Hv : forall k, k < nth 2 (shape (P logits)) 0 ->
             get (P logits) (set_at 2 k (b :: j :: a :: x))
             = Some (val (get (P logits) (b :: j :: k :: x)))).
  { intros k Hk; rewrite Es in Hk; cbn [nth] in Hk.
    change (set_at 2 k (b :: j :: a :: x)) with (b :: j :: k :: x).
    now apply finite_val, preactivate_finite. }
  assert (Hr : 2 < length (shape (P logits))) by (rewrite Es; simpl; lia).
  assert (Hin : in_range (shape (P logits)) (b :: j :: a :: x))
    by (rewrite Es; repeat constructor; auto).
  assert (Ha' : a < nth 2 (shape (P logits)) 0) by (now rewrite Es).
  assert (Hnz : sqrt (rsum (fun k => val (get (P logits) (b :: j :: k :: x))
                                     * val (get (P logits) (b :: j :: k :: x)))%R
                           (nth 2 (shape (P logits)) 0)) <> 0%R).
  { intros Hz; apply Hn.
    rewrite (norm_at_finite _ _ _ Hv); now rewrite Hz. }
  pose proof (squash_finite (P logits) (b :: j :: a :: x) _ Hr Hin Hv Hnz
                            a Ha') as Hs.
  eexists; exact Hs.
Qed.

Lemma logits_stay_finite k :
  (forall t, t < k ->
     forall b j a x, b < B -> j < O -> a < A -> in_range sp x ->
       norm_at (P (L t)) (b :: j :: a :: x) <> Some 0%R) ->
  finite_on (L k).
Proof.
  induction k as [|k IH]; intros Hn idx Hin.
  - exists 0%R; reflexivity.
  - assert (Hf : finite_on (L k)) by (apply IH; intros; apply Hn; auto).
    assert (Es : shape (L k) = logit_shape)
      by exact (logits_at_shape votes biases leaky B I O A sp
                                votes_shape biases_shape k).
    assert (Es' : shape (L (S k)) = logit_shape)
      by exact (logits_at_shape votes biases leaky B I O A sp
                                votes_shape biases_shape (S k)).
    rewrite Es' in Hin; unfold in_range, logit_shape in Hin.
    inversion Hin as [|b dB idx1 s1 Hb H1]; subst.
    inversion H1 as [|i dI idx2 s2 Hi H2]; subst.
    inversion H2 as [|j dO x s3 Hj Hx]; subst.
    unfold L.
    rewrite (logits_at_step votes biases leaky B I O A sp
                            votes_shape biases_shape) by assumption.
    destruct (Hf (b :: i :: j :: x)) as [l Hl].
    { rewrite Es; repeat constructor; auto. }
    change (exists y,
              nadd (get (L k) (b :: i :: j :: x))
                   (nsum (fun a =>
                            nmul (get votes (b :: i :: j :: a :: x))
                                 (get (activation_at votes biases logit_shape
                                         num_ranks I O leaky k)
                                      (b :: j :: a :: x))) A)
              = Some y).
    rewrite Hl.
    destruct (nsum_finite
                (fun a => nmul (get votes (b :: i :: j :: a :: x))
                               (get (activation_at votes biases logit_shape
                                       num_ranks I O leaky k)
                                    (b :: j :: a :: x))) A)
      as [w Hw].
    + intros a Ha.
      destruct (votes_finite (b :: i :: j :: a :: x)) as [v ->].
      { rewrite votes_shape; repeat constructor; auto. }
      destruct (activation_finite (L k) b j a x) as [y Hy]; auto.
      unfold activation_at; fold L; rewrite Hy; eexists; reflexivity.
    + rewrite Hw; eexists; reflexivity.
Qed.

(** At iteration [k] of the loop, when no vector squashed in an earlier
    iteration had norm zero, the routing coefficients of every input capsule
    sum to 1 (standard routing) or to a value strictly between 0 and 1
    (leaky routing). *)
Lemma coefficients_sum_in_loop k b i x :
  1 <= O ->
  (forall t, t < k ->
     forall b j a x, b < B -> j < O -> a < A -> in_range sp x ->
       norm_at (P (L t)) (b :: j :: a :: x) <> Some 0%R) ->
  b < B -> i < I -> in_range sp x ->
  exists s,
    nsum (fun j => get (route_of O leaky (L k)) (b :: i :: j :: x)) O = Some s
    /\ (if leaky then 0 < s < 1 else s = 1)%R.
Proof.
  intros HO Hn Hb Hi Hx.
  assert (Es : shape (L k) = logit_shape)
    by exact (logits_at_shape votes biases leaky B I O A sp
                              votes_shape biases_shape k).
  assert (Hr : 2 < length (shape (L k))) by (rewrite Es; simpl; lia).
  assert (Hin : in_range (shape (L k)) (b :: i :: 0 :: x))
    by (rewrite Es; repeat constructor; auto).
  assert (EO : nth 2 (shape (L k)) 0 = O) by (now rewrite Es).
  pose proof (logits_along_axis (L k) b i 0 x Es (logits_stay_finite k Hn)
                                Hb Hi HO Hx) as Hv.
  unfold route_of; destruct leaky.
  - destruct (leaky_sum_below_one (L k) (b :: i :: 0 :: x) _ Hr Hin Hv)
      as (s & Hs & Hlt).
    rewrite EO in Hs; exists s; split; auto.
  - pose proof (softmax_sum_one (L k) (b :: i :: 0 :: x) _ Hr Hin Hv) as Hs.
    rewrite EO in Hs; exists 1%R; split; auto.
Qed.

End Finiteness.

(** ** The theorems at concrete layers *)





Lemma dense_vote_transform_witness :
  shape (Wx_plus_b unit_input unit_weights 1 1 1) = [1; 1; 1; 1] /\
  get (Wx_plus_b unit_input unit_weights 1 1 1) [0; 0; 0; 0]
  = nsum (fun c => nmul (get unit_input [0; 0; c])
                        (get unit_weights [0; c; 0])) 1.
Proof.
  apply (dense_vote_transform unit_input unit_weights 1 1 1 1 1 0 0 0 0).
  - reflexivity.
  - reflexivity.
  - lia.
  - lia.
  - lia.
  - lia.
Defined.


(* ================================================================== *)
(** * Further properties of the routing engine *)

(** ** Shape of the result *)

Lemma activation_at_shape votes biases leaky B I O A sp k :
  shape votes = B :: I :: O :: A :: sp ->
  shape biases = O :: A :: sp ->
  shape (activation_at votes biases (B :: I :: O :: sp) (4 + length sp)
                       I O leaky k)
  = B :: O :: A :: sp.
Proof.
  intros Ev Eb; unfold activation_at.
  exact (act_shape_of votes biases leaky B I O A sp Ev Eb _
           (logits_at_shape votes biases leaky B I O A sp Ev Eb k)).
Qed.

(** X1: for votes of shape [[B, I, O, A, spatial...]] and
    [num_routing >= 1], [_update_routing] returns a tensor of shape
    [[B, O, A, spatial...]], whatever [num_routing] and [leaky]; it adds
    exactly [num_routing] tensors to the collection [visual], each of that
    shape, and leaves the earlier entries in place. *)
Theorem routing_output_shape
        votes biases leaky B I O A sp num_routing visual :
  shape votes = B :: I :: O :: A :: sp ->
  shape biases = O :: A :: sp ->
  1 <= num_routing ->
  exists out added,
    _update_routing votes biases (B :: I :: O :: sp) (4 + length sp) I O
                    leaky num_routing visual
    = Ok (out, visual ++ added) /\
    shape out = B :: O :: A :: sp /\
    length added = num_routing /\
    Forall (fun t => shape t = B :: O :: A :: sp) added.
Proof.
  intros Ev Eb Hn.
  eexists; eexists; split; [apply update_routing_trace; lia|].
  split; [now apply activation_at_shape|].
  split; [now rewrite length_map, length_seq|].
  apply Forall_forall; intros t Ht.
  apply in_map_iff in Ht; destruct Ht as (k & <- & _).
  now apply activation_at_shape.
Qed.

Lemma routing_output_shape_witness :
  exists out added,
    _update_routing unit_votes unit_biases [1; 1; 1] 4 1 1 true 3 []
    = Ok (out, added) /\
    shape out = [1; 1; 1] /\
    length added = 3 /\
    Forall (fun t => shape t = [1; 1; 1]) added.
Proof.
  apply (routing_output_shape unit_votes unit_biases true 1 1 1 1 [] 3 []).
  - reflexivity.
  - reflexivity.
  - lia.
Defined.

(** ** The rank argument *)


(* ================================================================== *)
(** * Further properties of squash *)






Lemma nsum_none f n k : k < n -> f k = None -> nsum f n = None.
Proof.
  induction n as [|n IH]; intros Hk Hf; [lia|]; simpl.
  destruct (Nat.eq_dec k n) as [->|Hne].
  - rewrite Hf; destruct (nsum f n); reflexivity.
  - rewrite IH by (auto; lia); reflexivity.
Qed.

(** X5: a component that is not a finite number spoils its whole capsule:
    if one atom of the vector at [idx] is not finite, every atom of the
    squashed vector at [idx] is not finite, because the norm is taken over
    all atoms. *)
Theorem squash_spreads_nan t idx k0 :
  2 < length (shape t) -> in_range (shape t) idx ->
  k0 < nth 2 (shape t) 0 -> get t (set_at 2 k0 idx) = None ->
  forall k, k < nth 2 (shape t) 0 ->
    get (_squash t) (set_at 2 k idx) = None.
Proof.
  intros Hr H Hk0 Hnan k Hk.
  assert (Hl : 2 < length idx) by (rewrite (in_range_length _ _ H); lia).
  rewrite squash_get by (auto using in_range_set_at).
  rewrite norm_at_set_at by assumption.
  assert (Hn : norm_at t idx = None).
  { unfold norm_at; rewrite (nsum_none _ _ k0); auto.
    now rewrite Hnan. }
  rewrite Hn.
  destruct (get t (set_at 2 k idx)); reflexivity.
Qed.

Lemma squash_spreads_nan_witness :
  get (_squash nan_capsule) [0; 0; 0] = None /\
  get (_squash nan_capsule) [0; 0; 1] = None.
Proof.
  assert (H : forall k, k < 2 ->
            get (_squash nan_capsule) (set_at 2 k [0; 0; 0]) = None).
  { apply (squash_spreads_nan nan_capsule [0; 0; 0] 0).
    - simpl; lia.
    - repeat constructor.
    - simpl; lia.
    - reflexivity. }
  split; [apply (H 0) | apply (H 1)]; lia.
Defined.

(** X6: squash treats every capsule on its own.  Two tensors of the same
    shape whose vectors along the atoms axis agree at the position [idx]
    have the same squashed value at [idx], whatever they hold elsewhere. *)
Theorem squash_is_local t u idx :
  shape t = shape u -> 2 < length (shape t) -> in_range (shape t) idx ->
  (forall k, k < nth 2 (shape t) 0 ->
     get t (set_at 2 k idx) = get u (set_at 2 k idx)) ->
  get (_squash t) idx = get (_squash u) idx.
Proof.
  intros Es Hr H Hv.
  assert (Hl : 2 < length idx) by (rewrite (in_range_length _ _ H); lia).
  assert (Hn : norm_at t idx = norm_at u idx).
  { unfold norm_at; rewrite <- Es; f_equal; apply nsum_ext; intros k Hk.
    now rewrite Hv. }
  assert (Hi : get t idx = get u idx).
  { pose proof (Hv (nth 2 idx 0) (in_range_nth _ _ 2 H Hr)) as E.
    now rewrite set_at_nth in E. }
  rewrite !squash_get; auto; try (now rewrite <- Es).
  now rewrite Hn, Hi.
Qed.

Lemma squash_is_local_witness :
  get (_squash pair_of_ones) [0; 0; 0] = get (_squash one_and_nan) [0; 0; 0].
Proof.
  apply (squash_is_local pair_of_ones one_and_nan [0; 0; 0]).
  - reflexivity.
  - simpl; lia.
  - repeat constructor.
  - reflexivity.
Defined.

(* ================================================================== *)
(** * Further properties of the routing coefficients *)






(* ================================================================== *)
(** * Further properties of the layer output *)

(** ** Zero votes and zero biases *)

Lemma zon_mul_zero r : zero_or_nan (nmul r (Some 0%R)).
Proof.
  destruct r as [c|]; [left | right]; simpl; auto.
  now rewrite Rmult_0_r.
Qed.

Lemma zon_mul_self a : zero_or_nan a -> zero_or_nan (nmul a a).
Proof.
  intros [-> | ->]; [left | right]; simpl; auto.
  now rewrite Rmult_0_r.
Qed.

Lemma zon_add a b : zero_or_nan a -> zero_or_nan b -> zero_or_nan (nadd a b).
Proof.
  intros [-> | ->] [-> | ->]; [left | right | right | right]; simpl; auto.
  now rewrite Rplus_0_r.
Qed.

Lemma zon_sum f n :
  (forall k, k < n -> zero_or_nan (f k)) -> zero_or_nan (nsum f n).
Proof.
  induction n as [|n IH]; intros H; simpl; [now left|].
  apply zon_add; [apply IH; intros; apply H; lia | apply H; lia].
Qed.

Lemma zon_sqrt a : zero_or_nan a -> zero_or_nan (nsqrt a).
Proof.
  intros [-> | ->]; [left | right]; simpl; auto.
  destruct (Rlt_dec 0 0); [lra | now rewrite sqrt_0].
Qed.

(** Squash of a vector whose atoms are all zero or not finite. *)
Lemma squash_zero_or_nan t idx :
  2 < length (shape t) -> in_range (shape t) idx ->
  (forall k, k < nth 2 (shape t) 0 -> zero_or_nan (get t (set_at 2 k idx))) ->
  get (_squash t) idx = None.
Proof.
  intros Hr H Hz.
  rewrite squash_get by assumption.
  assert (Hn : zero_or_nan (norm_at t idx)).
  { unfold norm_at; apply zon_sqrt, zon_sum; intros k Hk.
    now apply zon_mul_self, Hz. }
  destruct Hn as [-> | ->].
  - destruct (get t idx) as [v|]; simpl; auto.
    destruct (Req_dec_T 0 0); [reflexivity | tauto].
  - destruct (get t idx); reflexivity.
Qed.

Section ZeroLayer.

Variables (votes biases : tensor) (leaky : bool).
Variables (B I O A : nat) (sp : list nat).

Hypothesis votes_shape : shape votes = B :: I :: O :: A :: sp.
Hypothesis biases_shape : shape biases = O :: A :: sp.
Hypothesis votes_zero : all_zero votes.
Hypothesis biases_zero : all_zero biases.

Lemma zero_layer_activation logits b j a x :
  shape logits = B :: I :: O :: sp ->
  b < B -> j < O -> a < A -> in_range sp x ->
  get (activation_of votes biases (4 + length sp) O leaky logits)
      (b :: j :: a :: x) = None.
Proof.
  intros E Hb Hj Ha Hx; unfold activation_of, preactivate_of.
  pose proof (preactivate_shape votes biases leaky B I O A sp
                                votes_shape biases_shape logits E) as Es.
  apply squash_zero_or_nan.
  - rewrite Es; simpl; lia.
  - rewrite Es; repeat constructor; auto.
  - rewrite Es; cbn [nth]; intros k Hk.
    change (set_at 2 k (b :: j :: a :: x)) with (b :: j :: k :: x).
    rewrite (preactivate_get votes biases leaky B I O A sp
                             votes_shape biases_shape) by assumption.
    apply zon_add.
    + apply zon_sum; intros i Hi.
      rewrite votes_zero
        by (rewrite votes_shape; repeat constructor; auto).
      apply zon_mul_zero.
    + left; apply biases_zero.
      rewrite biases_shape; repeat constructor; auto.
Qed.

End ZeroLayer.

(** X9: a layer whose votes and biases are all zero returns no number.  For
    every [num_routing >= 1], standard or leaky, every element of the tensor
    returned by [_update_routing] is a value that is not finite: the weighted
    sum is the zero vector in the first iteration, its norm is zero, and
    squash divides by it. *)
Theorem zero_layer_output_not_finite
        votes biases leaky B I O A sp num_routing visual b j a x :
  shape votes = B :: I :: O :: A :: sp ->
  shape biases = O :: A :: sp ->
  all_zero votes -> all_zero biases ->
  1 <= num_routing ->
  b < B -> j < O -> a < A -> in_range sp x ->
  exists out added,
    _update_routing votes biases (B :: I :: O :: sp) (4 + length sp) I O
                    leaky num_routing visual
    = Ok (out, visual ++ added) /\
    get out (b :: j :: a :: x) = None.
Proof.
  intros Ev Eb Zv Zb Hn Hb Hj Ha Hx.
  eexists; eexists; split; [apply update_routing_trace; lia|].
  unfold activation_at.
  apply (zero_layer_activation votes biases leaky B I O A sp Ev Eb Zv Zb);
    auto.
  exact (logits_at_shape votes biases leaky B I O A sp Ev Eb _).
Qed.

Lemma zero_layer_output_not_finite_witness :
  exists out added,
    _update_routing (fill [1; 2; 2; 2] 0) (fill [2; 2] 0) [1; 2; 2] 4 2 2
                    false 3 []
    = Ok (out, added) /\
    get out [0; 1; 0] = None.
Proof.
  apply (zero_layer_output_not_finite
           (fill [1; 2; 2; 2] 0) (fill [2; 2] 0) false 1 2 2 2 [] 3 []
           0 1 0 []).
  - reflexivity.
  - reflexivity.
  - intros idx _; reflexivity.
  - intros idx _; reflexivity.
  - lia.
  - lia.
  - lia.
  - lia.
  - constructor.
Defined.

(** ** Length of the output capsules *)


Lemma unit_layer_preactivate :
  get (preactivate_of unit_votes unit_biases 4 1 false (fill [1; 1; 1] 0))
      [0; 0; 0] = Some 1%R.
Proof.
  assert (Hx : in_range [] []) by constructor.
  pose proof (preactivate_get unit_votes unit_biases false 1 1 1 1 []
                              eq_refl eq_refl (fill [1; 1; 1] 0) 0 0 0 []
                              eq_refl Nat.lt_0_1 Nat.lt_0_1 Nat.lt_0_1 Hx)
    as E.
  pose proof (route_uniform false 1 1 1 [] 0 0 0 []
                            Nat.lt_0_1 Nat.lt_0_1 Nat.lt_0_1 Hx) as Er.
  unfold preactivate_of; etransitivity; [exact E|].
  cbn [nsum]; rewrite Er.
  simpl; f_equal; field.
Qed.

Lemma unit_layer_norm :
  norm_at (preactivate_of unit_votes unit_biases 4 1 false (fill [1; 1; 1] 0))
          [0; 0; 0] <> Some 0%R.
Proof.
  assert (Es : shape (preactivate_of unit_votes unit_biases 4 1 false
                                     (fill [1; 1; 1] 0)) = [1; 1; 1])
    by exact (preactivate_shape unit_votes unit_biases false 1 1 1 1 []
                                eq_refl eq_refl (fill [1; 1; 1] 0) eq_refl).
  rewrite (norm_at_finite _ _ (fun _ => 1%R)).
  - rewrite Es; simpl; intros H; injection H as H.
    replace (0 + 1 * 1)%R with 1%R in H by lra.
    rewrite sqrt_1 in H; lra.
  - rewrite Es; simpl; intros k Hk.
    assert (k = 0) by lia; subst k.
    exact unit_layer_preactivate.
Qed.


(* ================================================================== *)
(** * The convolutional capsule layer *)

(** ** Reshaping *)

Lemma ravel_acc s : forall idx acc,
  length idx = length s -> ravel s idx acc = acc * prod s + ravel s idx 0.
Proof.
  induction s as [|d s IH]; intros [|i idx] acc Hl; simpl in *;
    try discriminate; try lia.
  rewrite (IH idx (acc * d + i)), (IH idx i) by lia; lia.
Qed.

Lemma ravel_bound s idx : in_range s idx -> ravel s idx 0 < prod s.
Proof.
  unfold in_range; induction 1 as [|i d idx s Hid H IH]; simpl; [lia|].
  rewrite ravel_acc by (now apply in_range_length).
  nia.
Qed.

(** The row-major position determines the index. *)
Lemma unravel_ravel s idx : in_range s idx -> unravel s (ravel s idx 0) = idx.
Proof.
  unfold in_range; induction 1 as [|i d idx s Hid H IH]; simpl; auto.
  pose proof (ravel_bound s idx H) as Hb.
  rewrite ravel_acc by (now apply in_range_length).
  f_equal.
  - symmetry; apply Nat.div_unique with (r := ravel s idx 0); auto; lia.
  - rewrite <- IH at 2; f_equal.
    symmetry; apply Nat.mod_unique with (q := i); auto; lia.
Qed.

Lemma reshape_nat t dims :
  reshape t (map Z.of_nat dims)
  = mkT dims (fun idx => get t (unravel (shape t) (ravel dims idx 0))).
Proof.
  unfold reshape.
  assert (E : map (fun d => if (d <? 0)%Z
                            then prod (shape t) / known_size (map Z.of_nat dims)
                            else Z.to_nat d) (map Z.of_nat dims) = dims).
  { rewrite map_map; rewrite <- (map_id dims) at 2.
    apply map_ext; intros d.
    replace (Z.of_nat d <? 0)%Z with false by (symmetry; apply Z.ltb_ge; lia).
    apply Nat2Z.id. }
  now rewrite E.
Qed.

Lemma reshape_get t dims idx idx0 :
  in_range (shape t) idx0 ->
  ravel dims idx 0 = ravel (shape t) idx0 0 ->
  get (reshape t (map Z.of_nat dims)) idx = get t idx0.
Proof.
  intros H E; rewrite reshape_nat; cbn [get].
  now rewrite E, unravel_ravel.
Qed.

(** ** The sizes of the convolution *)


Lemma valid_window_inside n k s y d :
  1 <= s -> y < out_size VALID n k s -> d < k -> y * s + d < n.
Proof.
  intros Hs Hy Hd; unfold out_size in Hy.
  pose proof (Nat.Div0.mul_div_le (n + s - k) s) as Hq.
  nia.
Qed.

(** ** The votes of the convolutional layer *)

Section ConvVotes.

Variables (in_tensor kernel : tensor) (B I C H W kh kw O A : nat).
Variables (stride : nat) (p : padding).

Hypothesis in_shape : shape in_tensor = [B; I; C; H; W].
Hypothesis kernel_shape : shape kernel = [kh; kw; C; O * A].

Let oh := out_size p H kh stride.
Let ow := out_size p W kw stride.
Let top := pad_before p H kh stride.
Let left := pad_before p W kw stride.
Let in_tensor_reshaped :=
  reshape in_tensor (map Z.of_nat [B * I; C; H; W]).
Let conv := conv2d in_tensor_reshaped kernel [1; 1; stride; stride] p.

Lemma conv_shape_eq : shape conv = [B * I; O * A; oh; ow].
Proof.
  unfold conv, conv2d, in_tensor_reshaped; rewrite reshape_nat; cbn [shape nth].
  now rewrite kernel_shape.
Qed.

Lemma padded_reshaped b i c py px :
  b < B -> i < I -> c < C ->
  padded in_tensor_reshaped top left (b * I + i) c py px
  = padded5 in_tensor top left b i c py px.
Proof.
  intros Hb Hi Hc; unfold padded, padded5, in_tensor_reshaped.
  rewrite reshape_nat, in_shape; cbn [shape nth get].
  destruct (top <=? py) eqn:E1; cbn [andb]; auto.
  destruct (py - top <? H) eqn:E2; cbn [andb]; auto.
  destruct (left <=? px) eqn:E3; cbn [andb]; auto.
  destruct (px - left <? W) eqn:E4; cbn [andb]; auto.
  apply Nat.ltb_lt in E2, E4.
  rewrite <- (unravel_ravel [B; I; C; H; W] [b; i; c; py - top; px - left])
    by (repeat constructor; auto).
  f_equal; f_equal; cbn [ravel]; ring.
Qed.

Lemma conv_get b i j a y x :
  b < B -> i < I -> j < O -> a < A ->
  get conv [b * I + i; j * A + a; y; x]
  = nsum (fun di =>
      nsum (fun dj =>
        nsum (fun c =>
          nmul (padded5 in_tensor top left b i c
                        (y * stride + di) (x * stride + dj))
               (get kernel [di; dj; c; j * A + a])) C) kw) kh.
Proof.
  intros Hb Hi Hj Ha; unfold conv, conv2d.
  assert (Es : shape in_tensor_reshaped = [B * I; C; H; W])
    by (unfold in_tensor_reshaped; now rewrite reshape_nat).
  cbn [get nth]; rewrite Es, kernel_shape; cbn [nth].
  apply nsum_ext; intros di _.
  apply nsum_ext; intros dj _.
  apply nsum_ext; intros c Hc.
  fold top left; now rewrite padded_reshaped.
Qed.

Lemma votes_reshaped_get b i j a y x :
  b < B -> i < I -> j < O -> a < A -> y < oh -> x < ow ->
  get (reshape conv (map Z.of_nat [B; I; O; A; oh; ow])) [b; i; j; a; y; x]
  = get conv [b * I + i; j * A + a; y; x].
Proof.
  intros Hb Hi Hj Ha Hy Hx.
  apply reshape_get.
  - rewrite conv_shape_eq; repeat constructor; auto; nia.
  - rewrite conv_shape_eq; cbn [ravel]; ring.
Qed.

End ConvVotes.

Lemma depthwise_conv3d_unfold
      in_tensor kernel B I C H W kh kw O A stride p visual :
  shape in_tensor = [B; I; C; H; W] ->
  shape kernel = [kh; kw; C; O * A] ->
  let oh := out_size p H kh stride in
  let ow := out_size p W kw stride in
  let conv := conv2d (reshape in_tensor (map Z.of_nat [B * I; C; H; W]))
                     kernel [1; 1; stride; stride] p in
  let votes := reshape conv (map Z.of_nat [B; I; O; A; oh; ow]) in
  _depthwise_conv3d in_tensor I C O A kernel stride p visual
  = ((votes, [B * I; O * A; oh; ow], [B; I; C; H; W]), visual ++ [votes]).
Proof.
  intros Ei Ek oh ow conv votes.
  pose proof (conv_shape_eq in_tensor kernel B I C H W kh kw O A stride p
                            Ek) as Ec.
  unfold _depthwise_conv3d; rewrite Ei; cbn [nth].
  rewrite Ec; cbn [nth]; reflexivity.
Qed.

(** X11: the votes of the convolutional layer.  For an input of shape
    [[B, I, C, H, W]] and a kernel of shape [[kh, kw, C, O*A]],
    [_depthwise_conv3d] returns votes of shape [[B, I, O, A, oh, ow]], the
    shape [[B*I, O*A, oh, ow]] of the 2D convolution and the shape of the
    input, and adds the votes to the collection [visual].  The vote of input
    capsule [i] for atom [a] of output capsule [j] at position [(y, x)] is
    the sum over the kernel window and the input atoms [c] of the zero-padded
    input of capsule [i] times [kernel[di, dj, c, j*A + a]]: the kernel does
    not depend on [i], all input capsules share it. *)
Theorem conv_votes
        in_tensor kernel B I C H W kh kw O A stride p visual b i j a y x :
  shape in_tensor = [B; I; C; H; W] ->
  shape kernel = [kh; kw; C; O * A] ->
  b < B -> i < I -> j < O -> a < A ->
  y < out_size p H kh stride -> x < out_size p W kw stride ->
  let r := _depthwise_conv3d in_tensor I C O A kernel stride p visual in
  let votes := fst (fst (fst r)) in
  shape votes
  = [B; I; O; A; out_size p H kh stride; out_size p W kw stride] /\
  snd (fst (fst r))
  = [B * I; O * A; out_size p H kh stride; out_size p W kw stride] /\
  snd (fst r) = [B; I; C; H; W] /\
  snd r = visual ++ [votes] /\
  get votes [b; i; j; a; y; x]
  = nsum (fun di =>
      nsum (fun dj =>
        nsum (fun c =>
          nmul (padded5 in_tensor (pad_before p H kh stride)
                        (pad_before p W kw stride) b i c
                        (y * stride + di) (x * stride + dj))
               (get kernel [di; dj; c; j * A + a])) C) kw) kh.
Proof.
  intros Ei Ek Hb Hi Hj Ha Hy Hx r votes.
  unfold votes, r.
  rewrite (depthwise_conv3d_unfold in_tensor kernel B I C H W kh kw O A
                                   stride p visual Ei Ek).
  cbn [fst snd].
  split; [now rewrite reshape_nat|].
  do 3 (split; [reflexivity|]).
  rewrite (votes_reshaped_get in_tensor kernel B I C H W kh kw O A stride p
                              Ek b i j a y x) by assumption.
  exact (conv_get in_tensor kernel B I C H W kh kw O A stride p Ei Ek
                  b i j a y x Hb Hi Hj Ha).
Qed.

(** X12: with ['VALID'] padding and a stride of at least 1 no window leaves
    the image: every input element read for the vote at [(y, x)] lies inside
    the input, at row [y*stride + di] and column [x*stride + dj], and the
    vote is the plain sum of input times kernel over the window. *)
Theorem conv_votes_valid
        in_tensor kernel B I C H W kh kw O A stride visual b i j a y x :
  shape in_tensor = [B; I; C; H; W] ->
  shape kernel = [kh; kw; C; O * A] ->
  1 <= stride ->
  b < B -> i < I -> j < O -> a < A ->
  y < out_size VALID H kh stride -> x < out_size VALID W kw stride ->
  (forall di dj c, di < kh -> dj < kw -> c < C ->
     in_range (shape in_tensor)
              [b; i; c; y * stride + di; x * stride + dj]) /\
  get (fst (fst (fst (_depthwise_conv3d in_tensor I C O A kernel stride
                                        VALID visual))))
      [b; i; j; a; y; x]
  = nsum (fun di =>
      nsum (fun dj =>
        nsum (fun c =>
          nmul (get in_tensor [b; i; c; y * stride + di; x * stride + dj])
               (get kernel [di; dj; c; j * A + a])) C) kw) kh.
Proof.
  intros Ei Ek Hs Hb Hi Hj Ha Hy Hx; split.
  - intros di dj c Hdi Hdj Hc; rewrite Ei.
    pose proof (valid_window_inside H kh stride y di Hs Hy Hdi).
    pose proof (valid_window_inside W kw stride x dj Hs Hx Hdj).
    repeat constructor; auto.
  - rewrite (depthwise_conv3d_unfold in_tensor kernel B I C H W kh kw O A
                                     stride VALID visual Ei Ek).
    cbn [fst snd].
    rewrite (votes_reshaped_get in_tensor kernel B I C H W kh kw O A stride
                                VALID Ek b i j a y x) by assumption.
    rewrite (conv_get in_tensor kernel B I C H W kh kw O A stride VALID Ei Ek
                      b i j a y x Hb Hi Hj Ha).
    apply nsum_ext; intros di Hdi.
    apply nsum_ext; intros dj Hdj.
    apply nsum_ext; intros c Hc.
    pose proof (valid_window_inside H kh stride y di Hs Hy Hdi) as H1.
    pose proof (valid_window_inside W kw stride x dj Hs Hx Hdj) as H2.
    unfold padded5; rewrite Ei; cbn [pad_before nth].
    rewrite !Nat.sub_0_r.
    replace (y * stride + di <? H) with true
      by (symmetry; now apply Nat.ltb_lt).
    replace (x * stride + dj <? W) with true
      by (symmetry; now apply Nat.ltb_lt).
    reflexivity.
Qed.

Lemma conv_votes_witness :
  shape (fst (fst (fst (_depthwise_conv3d conv_input 1 1 1 1 conv_kernel 1
                                          SAME []))))
  = [1; 1; 1; 1; 2; 2] /\
  get (fst (fst (fst (_depthwise_conv3d conv_input 1 1 1 1 conv_kernel 1
                                        SAME []))))
      [0; 0; 0; 0; 1; 1]
  = nsum (fun di =>
      nsum (fun dj =>
        nsum (fun c =>
          nmul (padded5 conv_input 0 0 0 0 c (1 * 1 + di) (1 * 1 + dj))
               (get conv_kernel [di; dj; c; 0 * 1 + 0])) 1) 1) 1.
Proof.
  destruct (conv_votes conv_input conv_kernel 1 1 1 2 2 1 1 1 1 1 SAME []
                       0 0 0 0 1 1)
    as (Hs & _ & _ & _ & Hg).
  - reflexivity.
  - reflexivity.
  - lia.
  - lia.
  - lia.
  - lia.
  - cbv; lia.
  - cbv; lia.
  - exact (conj Hs Hg).
Defined.

Lemma conv_votes_valid_witness :
  in_range (shape conv_input) [0; 0; 0; 1 * 1 + 0; 1 * 1 + 0] /\
  get (fst (fst (fst (_depthwise_conv3d conv_input 1 1 1 1 conv_kernel 1
                                        VALID []))))
      [0; 0; 0; 0; 1; 1]
  = nsum (fun di =>
      nsum (fun dj =>
        nsum (fun c =>
          nmul (get conv_input [0; 0; c; 1 * 1 + di; 1 * 1 + dj])
               (get conv_kernel [di; dj; c; 0 * 1 + 0])) 1) 1) 1.
Proof.
  destruct (conv_votes_valid conv_input conv_kernel 1 1 1 2 2 1 1 1 1 1 []
                             0 0 0 0 1 1)
    as (Hr & Hg).
  - reflexivity.
  - reflexivity.
  - lia.
  - lia.
  - lia.
  - lia.
  - lia.
  - cbv; lia.
  - cbv; lia.
  - split; [apply (Hr 0 0 0); lia | exact Hg].
Defined.

(** ** The layer *)

Lemma tile_biases_shape biases O A oh ow :
  shape biases = [O; A; 1; 1] ->
  shape (tile biases [1; 1; oh; ow]) = [O; A; oh; ow].
Proof.
  intros E; unfold tile; cbn [shape]; rewrite E; cbn [zip_with].
  now rewrite !Nat.mul_1_r, !Nat.mul_1_l.
Qed.

Lemma tile_biases_get biases O A oh ow j a y x :
  shape biases = [O; A; 1; 1] -> j < O -> a < A ->
  get (tile biases [1; 1; oh; ow]) [j; a; y; x] = get biases [j; a; 0; 0].
Proof.
  intros E Hj Ha; unfold tile; cbn [get shape]; rewrite E; cbn [zip_with].
  now rewrite !Nat.mod_1_r, (Nat.mod_small j), (Nat.mod_small a).
Qed.

Lemma conv_slim_capsule_unfold
      in_tensor kernel biases B I C H W kh kw O A stride p leaky
      num_routing visual :
  shape in_tensor = [B; I; C; H; W] ->
  shape kernel = [kh; kw; C; O * A] ->
  let oh := out_size p H kh stride in
  let ow := out_size p W kw stride in
  let votes := fst (fst (fst (_depthwise_conv3d in_tensor I C O A kernel
                                                stride p visual))) in
  conv_slim_capsule in_tensor I C O A kernel biases stride p leaky
                    num_routing visual
  = _update_routing votes (tile biases [1; 1; oh; ow]) [B; I; O; oh; ow]
                    6 I O leaky num_routing (visual ++ [votes]).
Proof.
  intros Ei Ek oh ow votes; unfold votes, conv_slim_capsule.
  rewrite (depthwise_conv3d_unfold in_tensor kernel B I C H W kh kw O A
                                   stride p visual Ei Ek).
  reflexivity.
Qed.



(** X14: one routing iteration of the convolutional layer.  With
    [num_routing = 1], [conv_slim_capsule] returns the squash of a tensor
    [pre] whose element for output capsule [j], atom [a] and position
    [(y, x)] is the sum over the input capsules of the uniform coefficient
    times the vote, plus [biases[j, a, 0, 0]]: one bias per output atom,
    shared by all positions of the grid. *)
Theorem conv_single_iteration
        in_tensor kernel biases B I C H W kh kw O A stride p leaky visual
        b j a y x :
  shape in_tensor = [B; I; C; H; W] ->
  shape kernel = [kh; kw; C; O * A] ->
  shape biases = [O; A; 1; 1] ->
  b < B -> j < O -> a < A ->
  y < out_size p H kh stride -> x < out_size p W kw stride ->
  let votes := fst (fst (fst (_depthwise_conv3d in_tensor I C O A kernel
                                                stride p visual))) in
  exists out pre,
    conv_slim_capsule in_tensor I C O A kernel biases stride p leaky 1 visual
    = Ok (out, visual ++ [votes; out]) /\
    same_tensor out (_squash pre) /\
    get pre [b; j; a; y; x]
    = nadd (nsum (fun i => nmul (Some (uniform_coefficient leaky O))
                                (get votes [b; i; j; a; y; x])) I)
           (get biases [j; a; 0; 0]).
Proof.
  intros Ei Ek Eb Hb Hj Ha Hy Hx votes.
  set (oh := out_size p H kh stride) in *.
  set (ow := out_size p W kw stride) in *.
  assert (Ev : shape votes = B :: I :: O :: A :: [oh; ow]).
  { unfold votes.
    rewrite (depthwise_conv3d_unfold in_tensor kernel B I C H W kh kw O A
                                     stride p visual Ei Ek).
    cbn [fst snd]; now rewrite reshape_nat. }
  assert (Et : shape (tile biases [1; 1; oh; ow]) = O :: A :: [oh; ow])
    by (now apply tile_biases_shape).
  exists (activation_of votes (tile biases [1; 1; oh; ow]) 6 O leaky
                        (fill [B; I; O; oh; ow] 0)),
         (add (reduce_sum (tmap (nmul (Some (uniform_coefficient leaky O)))
                                votes) 1 false)
              (tile biases [1; 1; oh; ow])).
  split; [|split].
  - rewrite (conv_slim_capsule_unfold in_tensor kernel biases B I C H W kh kw
                                      O A stride p leaky 1 visual Ei Ek).
    fold votes oh ow.
    rewrite update_routing_trace by lia.
    rewrite <- app_assoc; reflexivity.
  - exact (single_pass_activation votes (tile biases [1; 1; oh; ow]) leaky
                                  B I O A [oh; ow] Ev Et).
  - rewrite (reference_preactivate_get votes (tile biases [1; 1; oh; ow])
                                       B I O A [oh; ow] Ev Et)
      by (auto; repeat constructor; auto).
    now rewrite (tile_biases_get biases O A oh ow j a y x Eb Hj Ha).
Qed.

Lemma conv_single_iteration_witness :
  exists out pre,
    conv_slim_capsule conv_input 1 1 1 1 conv_kernel conv_biases 1 SAME
                      false 1 []
    = Ok (out, [fst (fst (fst (_depthwise_conv3d conv_input 1 1 1 1
                                                 conv_kernel 1 SAME [])));
                out]) /\
    same_tensor out (_squash pre) /\
    get pre [0; 0; 0; 1; 1]
    = nadd (nsum (fun i =>
                    nmul (Some (uniform_coefficient false 1))
                         (get (fst (fst (fst (_depthwise_conv3d
                                                conv_input 1 1 1 1
                                                conv_kernel 1 SAME []))))
                              [0; i; 0; 0; 1; 1])) 1)
           (get conv_biases [0; 0; 0; 0]).
Proof.
  apply (conv_single_iteration conv_input conv_kernel conv_biases
                               1 1 1 2 2 1 1 1 1 1 SAME false []
                               0 0 0 1 1).
  - reflexivity.
  - reflexivity.
  - reflexivity.
  - lia.
  - lia.
  - lia.
  - cbv; lia.
  - cbv; lia.
Defined.

(* ================================================================== *)
(** * Routing never mixes batch elements or positions *)

Lemma get_at_own_axis t u idx :
  2 < length (shape t) -> in_range (shape t) idx ->
  (forall k, k < nth 2 (shape t) 0 ->
     get t (set_at 2 k idx) = get u (set_at 2 k idx)) ->
  get t idx = get u idx.
Proof.
  intros Hr H Hv.
  pose proof (Hv (nth 2 idx 0) (in_range_nth _ _ 2 H Hr)) as E.
  rewrite set_at_nth in E; auto.
  rewrite (in_range_length _ _ H); lia.
Qed.

Lemma squash_local t u idx :
  shape t = shape u -> 2 < length (shape t) -> in_range (shape t) idx ->
  (forall k, k < nth 2 (shape t) 0 ->
     get t (set_at 2 k idx) = get u (set_at 2 k idx)) ->
  get (_squash t) idx = get (_squash u) idx.
Proof.
  intros Es Hr H Hv.
  rewrite !squash_get; auto; try (now rewrite <- Es).
  replace (norm_at u idx) with (norm_at t idx).
  - now rewrite (get_at_own_axis t u idx).
  - unfold norm_at; rewrite <- Es; f_equal; apply nsum_ext; intros k Hk.
    now rewrite Hv.
Qed.

Lemma softmax_local t u idx :
  shape t = shape u -> 2 < length (shape t) -> in_range (shape t) idx ->
  (forall k, k < nth 2 (shape t) 0 ->
     get t (set_at 2 k idx) = get u (set_at 2 k idx)) ->
  get (softmax t 2) idx = get (softmax u 2) idx.
Proof.
  intros Es Hr H Hv.
  assert (Hl : 2 < length idx) by (rewrite (in_range_length _ _ H); lia).
  rewrite !softmax_get; auto; try (now rewrite <- Es).
  rewrite <- Es, (get_at_own_axis t u idx) by assumption.
  f_equal; apply nsum_ext; intros k Hk.
  now rewrite Hv.
Qed.

Lemma leaky_local t u out_dim idx :
  shape t = shape u -> 2 < length (shape t) -> in_range (shape t) idx ->
  (forall k, k < nth 2 (shape t) 0 ->
     get t (set_at 2 k idx) = get u (set_at 2 k idx)) ->
  get (_leaky_routing t out_dim) idx = get (_leaky_routing u out_dim) idx.
Proof.
  intros Es Hr H Hv.
  assert (Hl : 2 < length idx) by (rewrite (in_range_length _ _ H); lia).
  assert (Hru : 2 < length (shape u)) by (now rewrite <- Es).
  pose proof (in_range_nth _ _ 2 H Hr) as Hk.
  unfold _leaky_routing; cbn [split split_from nth get].
  apply softmax_local.
  - rewrite !leaky_logits_shape by assumption; now rewrite Es.
  - rewrite leaky_logits_shape, length_set_at by assumption; assumption.
  - rewrite leaky_logits_shape by assumption.
    apply in_range_set_both; auto; lia.
  - rewrite leaky_logits_shape, nth_set_at by assumption.
    intros m Hm; rewrite set_at_set_at by assumption.
    cbn [concat get shape reduce_sum zeros_like fill].
    rewrite !nth_set_at by assumption.
    destruct m as [|m].
    + now rewrite Es.
    + replace (S m <? 1) with false by (symmetry; apply Nat.ltb_ge; lia).
      rewrite !set_at_set_at by assumption.
      replace (S m - 1) with m by lia.
      apply Hv; lia.
Qed.

Lemma route_local out_dim leaky t u idx :
  shape t = shape u -> 2 < length (shape t) -> in_range (shape t) idx ->
  (forall k, k < nth 2 (shape t) 0 ->
     get t (set_at 2 k idx) = get u (set_at 2 k idx)) ->
  get (route_of out_dim leaky t) idx = get (route_of out_dim leaky u) idx.
Proof.
  intros; unfold route_of; destruct leaky;
    [now apply leaky_local | now apply softmax_local].
Qed.

Section RoutingLocal.

Variables (votes1 votes2 biases : tensor) (leaky : bool).
Variables (B I O A : nat) (sp : list nat).
Variables (b : nat) (x : list nat).

Hypothesis votes1_shape : shape votes1 = B :: I :: O :: A :: sp.
Hypothesis votes2_shape : shape votes2 = B :: I :: O :: A :: sp.
Hypothesis biases_shape : shape biases = O :: A :: sp.
Hypothesis b_in_range : b < B.
Hypothesis x_in_range : in_range sp x.
Hypothesis votes_agree :
  forall i j a, i < I -> j < O -> a < A ->
    get votes1 (b :: i :: j :: a :: x) = get votes2 (b :: i :: j :: a :: x).

Let num_ranks := 4 + length sp.
Let logit_shape := B :: I :: O :: sp.

Lemma preactivate_local logits1 logits2 j a :
  shape logits1 = logit_shape -> shape logits2 = logit_shape ->
  (forall i j, i < I -> j < O ->
     get logits1 (b :: i :: j :: x) = get logits2 (b :: i :: j :: x)) ->
  j < O -> a < A ->
  get (preactivate_of votes1 biases num_ranks O leaky logits1)
      (b :: j :: a :: x)
  = get (preactivate_of votes2 biases num_ranks O leaky logits2)
        (b :: j :: a :: x).
Proof.
  intros E1 E2 Hl Hj Ha; unfold preactivate_of.
  rewrite (preactivate_get votes1 biases leaky B I O A sp
                           votes1_shape biases_shape) by assumption.
  rewrite (preactivate_get votes2 biases leaky B I O A sp
                           votes2_shape biases_shape) by assumption.
  f_equal; apply nsum_ext; intros i Hi.
  rewrite votes_agree by assumption.
  f_equal; apply route_local.
  - now rewrite E1, E2.
  - rewrite E1; simpl; lia.
  - rewrite E1; repeat constructor; auto.
  - rewrite E1; cbn [nth logit_shape]; intros k Hk.
    change (set_at 2 k (b :: i :: j :: x)) with (b :: i :: k :: x).
    now apply Hl.
Qed.

Lemma activation_local logits1 logits2 j a :
  shape logits1 = logit_shape -> shape logits2 = logit_shape ->
  (forall i j, i < I -> j < O ->
     get logits1 (b :: i :: j :: x) = get logits2 (b :: i :: j :: x)) ->
  j < O -> a < A ->
  get (activation_of votes1 biases num_ranks O leaky logits1)
      (b :: j :: a :: x)
  = get (activation_of votes2 biases num_ranks O leaky logits2)
        (b :: j :: a :: x).
Proof.
  intros E1 E2 Hl Hj Ha; unfold activation_of.
  assert (Es1 : shape (preactivate_of votes1 biases num_ranks O leaky logits1)
                = B :: O :: A :: sp)
    by exact (preactivate_shape votes1 biases leaky B I O A sp votes1_shape
                                biases_shape logits1 E1).
  assert (Es2 : shape (preactivate_of votes2 biases num_ranks O leaky logits2)
                = B :: O :: A :: sp)
    by exact (preactivate_shape votes2 biases leaky B I O A sp votes2_shape
                                biases_shape logits2 E2).
  apply squash_local.
  - now rewrite Es1, Es2.
  - rewrite Es1; simpl; lia.
  - rewrite Es1; repeat constructor; auto.
  - rewrite Es1; cbn [nth]; intros k Hk.
    change (set_at 2 k (b :: j :: a :: x)) with (b :: j :: k :: x).
    now apply preactivate_local.
Qed.

Lemma logits_local k :
  forall i j, i < I -> j < O ->
    get (logits_at votes1 biases logit_shape num_ranks I O leaky k)
        (b :: i :: j :: x)
    = get (logits_at votes2 biases logit_shape num_ranks I O leaky k)
          (b :: i :: j :: x).
Proof.
  induction k as [|k IH]; intros i j Hi Hj; [reflexivity|].
  rewrite (logits_at_step votes1 biases leaky B I O A sp
                          votes1_shape biases_shape) by assumption.
  rewrite (logits_at_step votes2 biases leaky B I O A sp
                          votes2_shape biases_shape) by assumption.
  fold num_ranks logit_shape; rewrite IH by assumption.
  f_equal; apply nsum_ext; intros a Ha.
  rewrite votes_agree by assumption; f_equal.
  unfold activation_at; apply activation_local; auto.
  - exact (logits_at_shape votes1 biases leaky B I O A sp
                           votes1_shape biases_shape k).
  - exact (logits_at_shape votes2 biases leaky B I O A sp
                           votes2_shape biases_shape k).
Qed.

Lemma activation_at_local k j a :
  j < O -> a < A ->
  get (activation_at votes1 biases logit_shape num_ranks I O leaky k)
      (b :: j :: a :: x)
  = get (activation_at votes2 biases logit_shape num_ranks I O leaky k)
        (b :: j :: a :: x).
Proof.
  intros Hj Ha; unfold activation_at; apply activation_local; auto.
  - exact (logits_at_shape votes1 biases leaky B I O A sp
                           votes1_shape biases_shape k).
  - exact (logits_at_shape votes2 biases leaky B I O A sp
                           votes2_shape biases_shape k).
  - apply logits_local.
Qed.

End RoutingLocal.

(** X15: the routing engine works on each batch element and each spatial
    position on its own.  If two vote tensors of the same shape agree on all
    votes of batch element [b] at position [x], the tensors returned by
    [_update_routing] for them (same biases, same [leaky], same
    [num_routing >= 1]) agree on every output capsule of batch element [b]
    at position [x], whatever the other votes are. *)
Theorem routing_is_pointwise
        votes1 votes2 biases leaky B I O A sp num_routing visual b x j a :
  shape votes1 = B :: I :: O :: A :: sp ->
  shape votes2 = B :: I :: O :: A :: sp ->
  shape biases = O :: A :: sp ->
  1 <= num_routing ->
  b < B -> in_range sp x ->
  (forall i j a, i < I -> j < O -> a < A ->
     get votes1 (b :: i :: j :: a :: x) = get votes2 (b :: i :: j :: a :: x)) ->
  j < O -> a < A ->
  exists out1 out2 added1 added2,
    _update_routing votes1 biases (B :: I :: O :: sp) (4 + length sp) I O
                    leaky num_routing visual
    = Ok (out1, visual ++ added1) /\
    _update_routing votes2 biases (B :: I :: O :: sp) (4 + length sp) I O
                    leaky num_routing visual
    = Ok (out2, visual ++ added2) /\
    get out1 (b :: j :: a :: x) = get out2 (b :: j :: a :: x).
Proof.
  intros E1 E2 Eb Hn Hb Hx Hag Hj Ha.
  do 4 eexists; split; [apply update_routing_trace; lia|].
  split; [apply update_routing_trace; lia|].
  exact (activation_at_local votes1 votes2 biases leaky B I O A sp b x
                             E1 E2 Eb Hb Hx Hag (num_routing - 1) j a Hj Ha).
Qed.

Lemma routing_is_pointwise_witness :
  exists out1 out2 added1 added2,
    _update_routing two_batch_votes unit_biases [2; 1; 1] 4 1 1 true 2 []
    = Ok (out1, added1) /\
    _update_routing two_batch_votes_nan unit_biases [2; 1; 1] 4 1 1 true 2 []
    = Ok (out2, added2) /\
    get out1 [0; 0; 0] = get out2 [0; 0; 0].
Proof.
  apply (routing_is_pointwise two_batch_votes two_batch_votes_nan unit_biases
                              true 2 1 1 1 [] 2 [] 0 [] 0 0).
  - reflexivity.
  - reflexivity.
  - reflexivity.
  - lia.
  - lia.
  - constructor.
  - intros i j a _ _ _; reflexivity.
  - lia.
  - lia.
Defined.

(* ================================================================== *)
(** * A single output capsule *)

Ltac in_range_tac :=
  unfold in_range; repeat (apply Forall2_cons; [assumption|]); assumption.

Section SingleOutput.

Variables (votes biases : tensor).
Variables (B I A : nat) (sp : list nat).

Hypothesis votes_shape : shape votes = B :: I :: 1 :: A :: sp.
Hypothesis biases_shape : shape biases = 1 :: A :: sp.
Hypothesis votes_finite : finite_on votes.
Hypothesis biases_finite : finite_on biases.

Let num_ranks := 4 + length sp.
Let logit_shape := B :: I :: 1 :: sp.
Let L := logits_at votes biases logit_shape num_ranks I 1 false.
Let P := preactivate_of votes biases num_ranks 1 false.

Hypothesis first_norms :
  forall b j a x, b < B -> j < 1 -> a < A -> in_range sp x ->
    norm_at (P (L 0)) (b :: j :: a :: x) <> Some 0%R.

(** Softmax over an axis of size 1. *)
Lemma route_single logits b i j x :
  shape logits = logit_shape -> finite_on logits ->
  b < B -> i < I -> j < 1 -> in_range sp x ->
  get (route_of 1 false logits) (b :: i :: j :: x) = Some 1%R.
Proof.
  intros E Hf Hb Hi Hj Hx.
  assert (Hin : in_range (shape logits) (b :: i :: j :: x))
    by (rewrite E; in_range_tac).
  assert (Hr : 2 < length (shape logits)) by (rewrite E; simpl; lia).
  assert (Hv : forall m, m < nth 2 (shape logits) 0 ->
             get logits (set_at 2 m (b :: i :: j :: x))
             = Some (val (get logits (b :: i :: m :: x)))).
  { intros m Hm; rewrite E in Hm; cbn [nth logit_shape] in Hm.
    change (set_at 2 m (b :: i :: j :: x)) with (b :: i :: m :: x).
    apply finite_val, Hf; rewrite E; in_range_tac. }
  assert (Hj' : j < nth 2 (shape logits) 0) by (now rewrite E).
  pose proof (softmax_coefficient logits (b :: i :: j :: x) _ j Hr Hin Hv Hj')
    as Hc.
  change (set_at 2 j (b :: i :: j :: x)) with (b :: i :: j :: x) in Hc.
  unfold route_of; rewrite Hc, E; cbn [nth logit_shape rsum].
  assert (j = 0) by lia; subst j.
  f_equal; pose proof (exp_pos (val (get logits (b :: i :: 0 :: x)))).
  field; lra.
Qed.

Lemma preactivate_single logits :
  shape logits = logit_shape -> finite_on logits ->
  same_tensor (P logits) (P (L 0)).
Proof.
  intros E Hf.
  assert (E0 : shape (L 0) = logit_shape) by reflexivity.
  assert (Hf0 : finite_on (L 0)) by (intros idx _; exists 0%R; reflexivity).
  assert (Es : shape (P logits) = B :: 1 :: A :: sp)
    by exact (preactivate_shape votes biases false B I 1 A sp votes_shape
                                biases_shape logits E).
  assert (Es0 : shape (P (L 0)) = B :: 1 :: A :: sp)
    by exact (preactivate_shape votes biases false B I 1 A sp votes_shape
                                biases_shape (L 0) E0).
  split; [now rewrite Es, Es0|].
  intros idx Hin; rewrite Es in Hin; unfold in_range in Hin.
  inversion Hin as [|b dB idx1 s1 Hb H1]; subst.
  inversion H1 as [|j dO idx2 s2 Hj H2]; subst.
  inversion H2 as [|a dA x s3 Ha Hx]; subst.
  unfold P, preactivate_of.
  rewrite !(preactivate_get votes biases false B I 1 A sp
                            votes_shape biases_shape) by assumption.
  f_equal; apply nsum_ext; intros i Hi.
  now rewrite !route_single.
Qed.

Lemma norms_never_zero k :
  forall t, t < k ->
    forall b j a x, b < B -> j < 1 -> a < A -> in_range sp x ->
      norm_at (P (L t)) (b :: j :: a :: x) <> Some 0%R.
Proof.
  induction k as [|k IH]; intros t Ht; [lia|].
  destruct (Nat.eq_dec t k) as [->|Hne]; [|apply IH; lia].
  intros b j a x Hb Hj Ha Hx.
  assert (E : shape (L k) = logit_shape)
    by exact (logits_at_shape votes biases false B I 1 A sp
                              votes_shape biases_shape k).
  assert (Hf : finite_on (L k))
    by exact (logits_stay_finite votes biases false B I 1 A sp votes_shape
                                 biases_shape votes_finite biases_finite
                                 k IH).
  pose proof (preactivate_single (L k) E Hf) as Hs.
  assert (Es : shape (P (L k)) = B :: 1 :: A :: sp)
    by exact (preactivate_shape votes biases false B I 1 A sp votes_shape
                                biases_shape (L k) E).
  rewrite (norm_at_ext _ _ _ Hs).
  - now apply first_norms.
  - rewrite Es; in_range_tac.
  - rewrite Es; simpl; lia.
Qed.

Lemma activation_single k :
  same_tensor (activation_at votes biases logit_shape num_ranks I 1 false k)
              (activation_at votes biases logit_shape num_ranks I 1 false 0).
Proof.
  assert (E : shape (L k) = logit_shape)
    by exact (logits_at_shape votes biases false B I 1 A sp
                              votes_shape biases_shape k).
  assert (Hf : finite_on (L k))
    by exact (logits_stay_finite votes biases false B I 1 A sp votes_shape
                                 biases_shape votes_finite biases_finite
                                 k (norms_never_zero k)).
  assert (Es : shape (P (L k)) = B :: 1 :: A :: sp)
    by exact (preactivate_shape votes biases false B I 1 A sp votes_shape
                                biases_shape (L k) E).
  change (same_tensor (_squash (P (L k))) (_squash (P (L 0)))).
  apply squash_ext; [now apply preactivate_single|].
  rewrite Es; simpl; lia.
Qed.

End SingleOutput.

(** X16: with a single output capsule type, standard routing has nothing to
    decide.  The softmax over an axis of size 1 gives every vote the
    coefficient 1, so (for finite votes and biases, and weighted sums of
    nonzero norm) the tensor returned after [num_routing] iterations is the
    one returned after a single iteration. *)
Theorem single_output_routing_is_idle
        votes biases B I A sp num_routing visual :
  shape votes = B :: I :: 1 :: A :: sp ->
  shape biases = 1 :: A :: sp ->
  finite_on votes -> finite_on biases ->
  (forall b j a x, b < B -> j < 1 -> a < A -> in_range sp x ->
     norm_at (preactivate_of votes biases (4 + length sp) 1 false
                             (fill (B :: I :: 1 :: sp) 0))
             (b :: j :: a :: x) <> Some 0%R) ->
  1 <= num_routing ->
  exists out1 outn added1 addedn,
    _update_routing votes biases (B :: I :: 1 :: sp) (4 + length sp) I 1
                    false 1 visual
    = Ok (out1, visual ++ added1) /\
    _update_routing votes biases (B :: I :: 1 :: sp) (4 + length sp) I 1
                    false num_routing visual
    = Ok (outn, visual ++ addedn) /\
    same_tensor outn out1.
Proof.
  intros Ev Eb Fv Fb Hnz Hn.
  do 4 eexists; split; [apply update_routing_trace; lia|].
  split; [apply update_routing_trace; lia|].
  exact (activation_single votes biases B I A sp Ev Eb Fv Fb Hnz
                           (num_routing - 1)).
Qed.

Lemma single_output_routing_is_idle_witness :
  exists out1 outn added1 addedn,
    _update_routing unit_votes unit_biases [1; 1; 1] 4 1 1 false 1 []
    = Ok (out1, added1) /\
    _update_routing unit_votes unit_biases [1; 1; 1] 4 1 1 false 3 []
    = Ok (outn, addedn) /\
    same_tensor outn out1.
Proof.
  apply (single_output_routing_is_idle unit_votes unit_biases 1 1 1 [] 3 []).
  - reflexivity.
  - reflexivity.
  - intros idx _; eexists; reflexivity.
  - intros idx _; eexists; reflexivity.
  - intros b j a x Hb Hj Ha Hx.
    assert (b = 0) by lia; assert (j = 0) by lia; assert (a = 0) by lia;
      subst.
    inversion Hx; exact unit_layer_norm.
  - lia.
Defined.

(* ================================================================== *)
(** * Normalising an image for display (layer_visual.py) *)

Lemma prod_pos_of_lt n s d : n < d * prod s -> 0 < prod s.
Proof. destruct (prod s); lia. Qed.

Lemma unravel_in_range s : forall n, n < prod s -> in_range s (unravel s n).
Proof.
  induction s as [|d s IH]; intros n Hn; simpl in *; [constructor|].
  pose proof (prod_pos_of_lt n s d Hn) as Hp.
  constructor.
  - apply Nat.Div0.div_lt_upper_bound; lia.
  - apply IH, Nat.mod_upper_bound; lia.
Qed.

Lemma rsum_affine a c f n :
  rsum (fun k => a * f k + c)%R n = (a * rsum f n + INR n * c)%R.
Proof.
  induction n as [|n IH]; [simpl; lra|].
  change (rsum (fun k => a * f k + c)%R (S n))
    with (rsum (fun k => a * f k + c)%R n + (a * f n + c))%R.
  change (rsum f (S n)) with (rsum f n + f n)%R.
  rewrite IH, S_INR; lra.
Qed.


Section Statistics.

Variable t : tensor.
Hypothesis t_finite : finite_on t.
Hypothesis t_nonempty : 0 < size t.

Let f (n : nat) : R := val (flat t n).
Let N : R := INR (size t).
Let m : R := (rsum f (size t) / N)%R.

Lemma N_pos : (0 < N)%R.
Proof. unfold N; now apply lt_0_INR. Qed.

Lemma flat_finite n : n < size t -> flat t n = Some (f n).
Proof.
  intros Hn; unfold f, flat.
  now apply finite_val, t_finite, unravel_in_range.
Qed.




(** The mean after an affine change [a * v + c] of every element. *)
Lemma mean_affine a c :
  mean (tmap (fun v => nadd (nmul (Some a) v) (Some c)) t)
  = Some (a * m + c)%R.
Proof.
  pose proof N_pos.
  unfold mean, tsum, size, flat; cbn [shape tmap get].
  rewrite nsum_some with (g := fun n => (a * f n + c)%R).
  - rewrite ndiv_nonzero by (fold (size t); fold N; lra).
    f_equal; rewrite rsum_affine; fold (size t); fold N.
    unfold m; field; lra.
  - intros k Hk.
    change (get t (unravel (shape t) k)) with (flat t k).
    rewrite flat_finite by assumption; reflexivity.
Qed.

End Statistics.

















(** ** From NCHW to an image *)

(** X20: [_squeeze_transpose] turns an array of shape [[1, C, H, W]] into
    one of shape [[H, W, C]] whose element [[h, w, c]] is the element
    [[0, c, h, w]] of the input, and fails (the ValueError of [np.squeeze])
    when the first axis does not have size 1. *)
Theorem squeeze_transpose_spec img n C H W :
  shape img = [n; C; H; W] ->
  (n = 1 ->
   exists out,
     _squeeze_transpose img = Some out /\
     shape out = [H; W; C] /\
     forall h w c, get out [h; w; c] = get img [0; c; h; w]) /\
  (n <> 1 -> _squeeze_transpose img = None).
Proof.
  intros E; unfold _squeeze_transpose, squeeze; rewrite E; cbn [nth].
  split.
  - intros ->; cbn [Nat.eqb].
    eexists; split; [reflexivity|]; split; reflexivity.
  - intros Hn; apply Nat.eqb_neq in Hn; now rewrite Hn.
Qed.

Lemma squeeze_transpose_spec_witness :
  (1 = 1 ->
   exists out,
     _squeeze_transpose (fill [1; 3; 2; 2] 1) = Some out /\
     shape out = [2; 2; 3] /\
     forall h w c,
       get out [h; w; c] = get (fill [1; 3; 2; 2] 1) [0; c; h; w]) /\
  (1 <> 1 -> _squeeze_transpose (fill [1; 3; 2; 2] 1) = None).
Proof.
  apply (squeeze_transpose_spec (fill [1; 3; 2; 2] 1) 1 3 2 2).
  reflexivity.
Defined.

(** ** Pixels *)





(** ** Gradient ascent on the image ([render_naive]) *)




Section Ascent.

Variable grad : tensor -> tensor.
Variable step : R.
Variable s : list nat.
Hypothesis s_nonempty : 0 < prod s.
Hypothesis grad_ok :
  forall img, shape img = s -> finite_on img ->
              shape (grad img) = s /\ finite_on (grad img).



End Ascent.






(** * Reading SVHN images (svhn_input.py) *)

Lemma resize_crop image th tw H W C :
  shape image = [H; W; C] ->
  0 < th -> 0 < tw -> th <= H -> tw <= W -> 0 < C ->
  exists out,
    resize_image_with_crop_or_pad image th tw = inr out /\
    shape out = [th; tw; C] /\
    forall y x c, y < th -> x < tw ->
      get out [y; x; c]
      = get image [y + (H - th) / 2; x + (W - tw) / 2; c].
Proof.
  intros E Hth Htw HH HW HC.
  unfold resize_image_with_crop_or_pad; rewrite E.
  cbn [length Nat.eqb negb orb existsb].
  change (3 - 3) with 0; change (3 - 2) with 1.
  cbn [nth set_at firstn skipn app].
  assert (EH : (H =? 0) = false) by (apply Nat.eqb_neq; lia).
  assert (EW : (W =? 0) = false) by (apply Nat.eqb_neq; lia).
  assert (EC : (C =? 0) = false) by (apply Nat.eqb_neq; lia).
  assert (Eth : (th =? 0) = false) by (apply Nat.eqb_neq; lia).
  assert (Etw : (tw =? 0) = false) by (apply Nat.eqb_neq; lia).
  rewrite EH, EW, EC, Eth, Etw; cbn [orb].
  eexists; split; [reflexivity|]; split; [reflexivity|].
  intros y x c Hy Hx; cbn [get nth set_at firstn skipn app].
  replace (th - H) with 0 by lia; replace (tw - W) with 0 by lia.
  rewrite !Nat.min_l by assumption.
  change (0 / 2) with 0; cbn [Nat.add Nat.leb].
  assert (Ey : (y <? th) = true) by (now apply Nat.ltb_lt).
  assert (Ex : (x <? tw) = true) by (now apply Nat.ltb_lt).
  rewrite Ey, Ex, !Nat.sub_0_r; reflexivity.
Qed.

Lemma random_crop_3 value rnd a b H W :
  shape value = [H; W; 3] ->
  random_crop value [a; b; 3] rnd
  = if (a <=? H) && (b <=? W)
    then inr (mkT [a; b; 3]
                  (fun idx =>
                     get value
                         (zip_with Nat.add
                            [rnd 0 mod (H - a + 1); rnd 1 mod (W - b + 1); 0]
                            idx)))
    else inl (Raised InvalidArgumentError).
Proof.
  intros E; unfold random_crop; rewrite E.
  cbn [length Nat.eqb negb combine forallb fst snd seq map zip_with nth].
  change (3 <=? 3) with true; rewrite !andb_true_r.
  change (3 - 3 + 1) with 1; rewrite Nat.mod_1_r.
  reflexivity.
Qed.

Lemma scale_unit v : (0 <= v <= 255)%R -> (0 <= v * (1 / 255) <= 1)%R.
Proof. intros; lra. Qed.

(** X24: [_single_process] on the test split with [distort] set.  An image
    [[H, W, C]] with [H, W >= 24] becomes the array [[C, 24, 24]] whose
    element [[c, y, x]] is the pixel [[y + (H - 24) / 2, x + (W - 24) / 2, c]]
    of the image times 1/255: the window lies inside the image, the rows cut
    above and below it differ by at most one, and a pixel in 0..255 gives a
    number in [[0, 1]]. *)
Theorem single_process_central_crop image label sp rnd H W C :
  shape image = [H; W; C] -> 24 <= H -> 24 <= W -> 0 < C ->
  specs_distort sp = true -> specs_split sp = "test"%string ->
  exists f,
    _single_process image label sp rnd = inr f /\
    shape (feature_image f) = [C; 24; 24] /\
    (forall c y x, y < 24 -> x < 24 ->
       get (feature_image f) [c; y; x]
       = nmul (get image [y + (H - 24) / 2; x + (W - 24) / 2; c])
              (Some (1 / 255)%R) /\
       y + (H - 24) / 2 < H /\ x + (W - 24) / 2 < W /\
       forall v, get image [y + (H - 24) / 2; x + (W - 24) / 2; c] = Some v ->
                 (0 <= v <= 255)%R ->
                 exists u, get (feature_image f) [c; y; x] = Some u /\
                           (0 <= u <= 1)%R) /\
    (H - 24) / 2 <= H - 24 - (H - 24) / 2 <= (H - 24) / 2 + 1.
Proof.
  intros E HH HW HC Hd Hs.
  destruct (resize_crop image 24 24 H W C E) as (out & Eo & Es & Eg);
    try lia.
  unfold _single_process; rewrite Hd, Hs.
  change (String.eqb "test" "train") with false.
  change (String.eqb "test" "test") with true.
  cbv zeta; cbn [fst]; rewrite Eo.
  eexists; split; [reflexivity|].
  cbn [feature_image shape transpose tmap map]; rewrite Es.
  split; [reflexivity|].
  pose proof (Nat.div_mod_eq (H - 24) 2) as DH.
  pose proof (Nat.mod_upper_bound (H - 24) 2) as MH.
  pose proof (Nat.div_mod_eq (W - 24) 2) as DW.
  pose proof (Nat.mod_upper_bound (W - 24) 2) as MW.
  split; [|lia].
  intros c y x Hy Hx.
  assert (G : get (transpose (tmap (fun v => nmul v (Some (1 / 255)%R)) out)
                             [2; 0; 1]) [c; y; x]
              = nmul (get image [y + (H - 24) / 2; x + (W - 24) / 2; c])
                     (Some (1 / 255)%R)).
  { cbn [get transpose tmap map seq length index_of Nat.eqb nth].
    now rewrite Eg. }
  split; [exact G|].
  split; [lia|]; split; [lia|].
  intros v Ev Hv; rewrite G, Ev.
  eexists; split; [reflexivity|]; now apply scale_unit.
Qed.

Lemma single_process_central_crop_witness :
  exists f,
    _single_process svhn_image svhn_label test_specs (fun _ => 0) = inr f /\
    shape (feature_image f) = [3; 24; 24] /\
    (forall c y x, y < 24 -> x < 24 ->
       get (feature_image f) [c; y; x]
       = nmul (get svhn_image [y + (32 - 24) / 2; x + (32 - 24) / 2; c])
              (Some (1 / 255)%R) /\
       y + (32 - 24) / 2 < 32 /\ x + (32 - 24) / 2 < 32 /\
       forall v,
         get svhn_image [y + (32 - 24) / 2; x + (32 - 24) / 2; c] = Some v ->
         (0 <= v <= 255)%R ->
         exists u, get (feature_image f) [c; y; x] = Some u /\
                   (0 <= u <= 1)%R) /\
    (32 - 24) / 2 <= 32 - 24 - (32 - 24) / 2 <= (32 - 24) / 2 + 1.
Proof.
  apply (single_process_central_crop
           svhn_image svhn_label test_specs (fun _ => 0) 32 32 3).
  - reflexivity.
  - lia.
  - lia.
  - lia.
  - reflexivity.
  - reflexivity.
Defined.


(** X25: [_single_process] on the train split with [distort] set, for an
    image [[H, W, 3]].  When [H, W >= 24] the result is a window of the
    image, whatever numbers the random crop draws: element [[c, y, x]] is
    the pixel [[oy + y, ox + x, c]] times 1/255 with [oy <= H - 24] and
    [ox <= W - 24], and no channel is dropped or moved.  An image with a
    side below 24 is refused by the kernel. *)
Theorem single_process_random_crop image label sp rnd H W :
  shape image = [H; W; 3] ->
  specs_distort sp = true -> specs_split sp = "train"%string ->
  (24 <= H -> 24 <= W ->
   exists f oy ox,
     _single_process image label sp rnd = inr f /\
     shape (feature_image f) = [3; 24; 24] /\
     oy = rnd 0 mod (H - 24 + 1) /\ ox = rnd 1 mod (W - 24 + 1) /\
     oy <= H - 24 /\ ox <= W - 24 /\
     forall c y x,
       get (feature_image f) [c; y; x]
       = nmul (get image [oy + y; ox + x; c]) (Some (1 / 255)%R)) /\
  (H < 24 \/ W < 24 ->
   _single_process image label sp rnd = inl (Raised InvalidArgumentError)).
Proof.
  intros E Hd Hs.
  unfold _single_process; rewrite Hd, Hs.
  change (String.eqb "train" "train") with true.
  cbv zeta; rewrite (random_crop_3 image rnd 24 24 H W E).
  split.
  - intros HH HW.
    assert (EH : (24 <=? H) = true) by (now apply Nat.leb_le).
    assert (EW : (24 <=? W) = true) by (now apply Nat.leb_le).
    rewrite EH, EW; cbn [andb].
    exists (mkFeature
              (transpose
                 (tmap (fun v => nmul v (Some (1 / 255)%R))
                    (mkT [24; 24; 3]
                       (fun idx =>
                          get image
                            (zip_with Nat.add
                               [rnd 0 mod (H - 24 + 1);
                                rnd 1 mod (W - 24 + 1); 0] idx))))
                 [2; 0; 1])
              (one_hot label 10)).
    exists (rnd 0 mod (H - 24 + 1)), (rnd 1 mod (W - 24 + 1)).
    pose proof (Nat.mod_upper_bound (rnd 0) (H - 24 + 1)).
    pose proof (Nat.mod_upper_bound (rnd 1) (W - 24 + 1)).
    repeat (split; [reflexivity || lia|]).
    intros c y x; reflexivity.
  - intros Hsmall.
    assert (Eb : (24 <=? H) && (24 <=? W) = false).
    { apply andb_false_iff; rewrite !Nat.leb_gt; tauto. }
    now rewrite Eb.
Qed.

Lemma single_process_random_crop_witness :
  (24 <= 32 -> 24 <= 32 ->
   exists f oy ox,
     _single_process svhn_image svhn_label train_specs (fun i => 11 + i)
     = inr f /\
     shape (feature_image f) = [3; 24; 24] /\
     oy = (11 + 0) mod (32 - 24 + 1) /\ ox = (11 + 1) mod (32 - 24 + 1) /\
     oy <= 32 - 24 /\ ox <= 32 - 24 /\
     forall c y x,
       get (feature_image f) [c; y; x]
       = nmul (get svhn_image [oy + y; ox + x; c]) (Some (1 / 255)%R)) /\
  (32 < 24 \/ 32 < 24 ->
   _single_process svhn_image svhn_label train_specs (fun i => 11 + i)
   = inl (Raised InvalidArgumentError)).
Proof.
  apply (single_process_random_crop
           svhn_image svhn_label train_specs (fun i => 11 + i) 32 32).
  - reflexivity.
  - reflexivity.
  - reflexivity.
Defined.


Lemma single_process_label image label sp rnd f :
  _single_process image label sp rnd = inr f ->
  feature_label f = one_hot label 10.
Proof.
  unfold _single_process.
  match goal with |- context [match ?c with inl _ => _ | inr _ => _ end] =>
    destruct c end; [discriminate|].
  now intros [= <-].
Qed.

(** X26: the label of a feature.  Whatever the split and the cropping, a
    label array holding the integer [l] at [idx] becomes a row of ten
    numbers at [idx] that holds 1 at position [l] and 0 elsewhere; a label
    of 10 or more gives a row of zeros, not an error. *)
Theorem single_process_one_hot image label sp rnd f idx l :
  _single_process image label sp rnd = inr f ->
  get label idx = Some (INR l) ->
  shape (feature_label f) = shape label ++ [10] /\
  (forall k, get (feature_label f) (idx ++ [k])
             = Some (if l =? k then 1 else 0)%R) /\
  (10 <= l -> forall k, k < 10 ->
                        get (feature_label f) (idx ++ [k]) = Some 0%R).
Proof.
  intros Ef El; rewrite (single_process_label image label sp rnd f Ef).
  assert (G : forall k, get (one_hot label 10) (idx ++ [k])
                        = Some (if l =? k then 1 else 0)%R).
  { intros k; cbn [one_hot get].
    rewrite removelast_last, last_last, El.
    destruct (Req_dec_T (INR l) (INR k)) as [e|n].
    - apply INR_eq in e; subst; now rewrite Nat.eqb_refl.
    - destruct (Nat.eqb_spec l k) as [->|_]; [now contradiction n|].
      reflexivity. }
  split; [reflexivity|]; split; [exact G|].
  intros Hl k Hk; rewrite G.
  destruct (Nat.eqb_spec l k); [lia | reflexivity].
Qed.

Lemma single_process_one_hot_witness :
  shape (feature_label svhn_feature) = shape svhn_label ++ [10] /\
  (forall k, get (feature_label svhn_feature) ([0] ++ [k])
             = Some (if 5 =? k then 1 else 0)%R) /\
  (10 <= 5 -> forall k, k < 10 ->
                        get (feature_label svhn_feature) ([0] ++ [k])
                        = Some 0%R).
Proof.
  apply (single_process_one_hot
           svhn_image svhn_label plain_specs (fun _ => 0) svhn_feature [0] 5).
  - reflexivity.
  - reflexivity.
Defined.









(** X29: [inputs] with [distort=False].  The dictionary it returns gives
    [image_size] 24, but [_single_process] with this dictionary does not
    crop: an image [[H, W, C]] becomes the array [[C, H, W]] whose element
    [[c, y, x]] is the pixel [[y, x, c]] times 1/255, so images of 32 x 32
    stay 32 x 32. *)
Theorem image_size_without_distort tbs g e images labels split sp
        image label rnd H W C :
  inputs_specs tbs g e images labels split false = inr sp ->
  shape image = [H; W; C] ->
  specs_image_size sp = 24%Z /\
  exists f,
    _single_process image label sp rnd = inr f /\
    shape (feature_image f) = [C; H; W] /\
    forall c y x,
      get (feature_image f) [c; y; x]
      = nmul (get image [y; x; c]) (Some (1 / 255)%R).
Proof.
  intros Hsp E.
  assert (Hd : specs_image_size sp = 24%Z /\ specs_distort sp = false).
  { unfold inputs_specs in Hsp.
    destruct (negb _); [discriminate|].
    destruct (g =? 0)%Z; [discriminate|].
    destruct (shape images) as [|n r]; [discriminate|].
    destruct (shape labels) as [|m r']; [discriminate|].
    destruct (negb _); [discriminate|].
    destruct (_ =? 0)%Z; [discriminate|].
    injection Hsp as <-; split; reflexivity. }
  destruct Hd as [Hi Hd]; split; [exact Hi|].
  unfold _single_process; rewrite Hd.
  eexists; split; [reflexivity|].
  cbn [feature_image shape transpose tmap map]; rewrite E.
  split; reflexivity.
Qed.

Lemma image_size_without_distort_witness :
  specs_image_size plain_specs = 24%Z /\
  exists f,
    _single_process svhn_image svhn_label plain_specs (fun _ => 0) = inr f /\
    shape (feature_image f) = [3; 32; 32] /\
    forall c y x,
      get (feature_image f) [c; y; x]
      = nmul (get svhn_image [y; x; c]) (Some (1 / 255)%R).
Proof.
  apply (image_size_without_distort
           2 1 1 svhn_images svhn_labels "test"%string plain_specs
           svhn_image svhn_label (fun _ => 0) 32 32 3).
  - reflexivity.
  - reflexivity.
Defined.

